(** * gwf local backend: the task scheduler and its state machine

    A shallow embedding of [gwf/backends/local.py]: [LocalStatus], [Task],
    [TaskScheduler] with its operations [enqueue_task], [cancel_task],
    [get_status], [set_status], [schedule_once] and the recursive transition
    function [_set_status], and of [LocalBackend.logs].

    Conventions of the embedding.
    - A Python [dict] is a [gmap]; the [OrderedDict] [_queue] is an
      association list with unique keys, in insertion order.
    - A Python [set] of task ids is a list without duplicates; the order of
      the list stands for the iteration order of the set, and [set.add]
      appends an absent element.  [_dependents] is a [defaultdict(set)]: a
      missing key reads as the empty set, and the empty entries that reading
      creates are not represented (no access of the scheduler tells an empty
      entry from a missing one).
    - An operation yields [Ok st] when it returns and [Raise e st] when it
      raises [e]; in both cases [st] is the scheduler as the operation left
      it (the lock is released by the [with] block either way).
    - The threads of the executors are not part of the model: their
      callbacks arrive as [set_status] operations. *)

From Stdlib Require Import ZArith.
From stdpp Require Import base tactics option list gmap strings sets fin_sets relations.

Set Warnings "-clear-no-such-hyp".

Local Open Scope Z_scope.
Local Open Scope string_scope.

(** ** Data model *)

Inductive LocalStatus :=
  | UNKNOWN | SUBMITTED | RUNNING | FAILED | COMPLETED | CANCELLED.

#[global] Instance LocalStatus_eq_dec : EqDecision LocalStatus.
Proof. solve_decision. Defined.

Module Task.
Record t := mk {
  id : string;
  script : string;
  working_dir : option string;
  env : gmap string string;
  resources : gmap string Z;
  dependencies : list string
}.
End Task.

(** [Executor]: the task it was asked to execute ([_task], [None] before
    [execute]) and its cancellation flag. *)
Record Executor := mkExecutor {
  ex_task : option Task.t;
  ex_cancelled : bool
}.

Definition Executor_new : Executor := mkExecutor None false.
Definition Executor_execute (task : Task.t) (e : Executor) : Executor :=
  mkExecutor (Some task) (ex_cancelled e).
Definition Executor_cancel (e : Executor) : Executor :=
  mkExecutor (ex_task e) true.

Inductive exn :=
  | KeyError (key : string)
  | BackendError (msg : string)
  | UnboundLocalError (name : string)
  | RecursionError.

Record TaskScheduler := mkScheduler {
  _max_cores : Z;
  _queue : list (string * Task.t);
  _dependents : gmap string (list string);
  _status_map : gmap string LocalStatus;
  _executors : gmap string Executor;
  _available_cores : Z;
  _shutdown : bool
}.

Inductive result (A : Type) :=
  | Ok (a : A)
  | Raise (e : exn) (a : A).
Arguments Ok {A} a.
Arguments Raise {A} e a.

(** The scheduler an operation leaves behind, however it ended. *)
Definition state_of {A} (r : result A) : A :=
  match r with Ok a => a | Raise _ a => a end.

Definition FAILED_STATES : list LocalStatus := [CANCELLED; FAILED].
Definition FINISHED_STATES : list LocalStatus := [CANCELLED; FAILED; COMPLETED].

(** [TaskScheduler.__init__] *)
Definition init (max_cores : Z) : TaskScheduler :=
  mkScheduler max_cores [] ∅ ∅ ∅ max_cores false.

(** ** The ordered dictionary [_queue] *)

Fixpoint od_get {A} (k : string) (q : list (string * A)) : option A :=
  match q with
  | [] => None
  | (k', v) :: q' => if decide (k' = k) then Some v else od_get k q'
  end.

(** [q[k] = v]: an existing key keeps its place, a new key goes last. *)
Fixpoint od_set {A} (k : string) (v : A) (q : list (string * A)) : list (string * A) :=
  match q with
  | [] => [(k, v)]
  | (k', v') :: q' =>
      if decide (k' = k) then (k, v) :: q' else (k', v') :: od_set k v q'
  end.

Fixpoint od_del {A} (k : string) (q : list (string * A)) : list (string * A) :=
  match q with
  | [] => []
  | (k', v') :: q' =>
      if decide (k' = k) then od_del k q' else (k', v') :: od_del k q'
  end.

(** ** Field updates *)

Definition with_queue (q : list (string * Task.t)) (st : TaskScheduler) :=
  mkScheduler (_max_cores st) q (_dependents st) (_status_map st)
              (_executors st) (_available_cores st) (_shutdown st).
Definition with_dependents (d : gmap string (list string)) (st : TaskScheduler) :=
  mkScheduler (_max_cores st) (_queue st) d (_status_map st)
              (_executors st) (_available_cores st) (_shutdown st).
Definition with_status_map (m : gmap string LocalStatus) (st : TaskScheduler) :=
  mkScheduler (_max_cores st) (_queue st) (_dependents st) m
              (_executors st) (_available_cores st) (_shutdown st).
Definition with_executors (e : gmap string Executor) (st : TaskScheduler) :=
  mkScheduler (_max_cores st) (_queue st) (_dependents st) (_status_map st)
              e (_available_cores st) (_shutdown st).
Definition with_available_cores (c : Z) (st : TaskScheduler) :=
  mkScheduler (_max_cores st) (_queue st) (_dependents st) (_status_map st)
              (_executors st) c (_shutdown st).

(** [self._status_map.get(task_id, LocalStatus.UNKNOWN)] *)
Definition get_status (st : TaskScheduler) (task_id : string) : LocalStatus :=
  default UNKNOWN (_status_map st !! task_id).

(** [self._dependents[task_id]] *)
Definition dependents_of (st : TaskScheduler) (task_id : string) : list string :=
  default [] (_dependents st !! task_id).

(** [s.add(x)] on a set kept as a duplicate-free list *)
Definition set_add (x : string) (s : list string) : list string :=
  if decide (x ∈ s) then s else s ++ [x].

(** [self._dependents[dep_id].add(id)] *)
Definition add_dependent (dep_id id : string) (st : TaskScheduler) : TaskScheduler :=
  with_dependents (<[dep_id := set_add id (dependents_of st dep_id)]> (_dependents st)) st.

(** [self._status_map[task_id] = status] *)
Definition store_status (task_id : string) (status : LocalStatus) (st : TaskScheduler) :=
  with_status_map (<[task_id := status]> (_status_map st)) st.

(** ** [TaskScheduler._set_status] *)

(** How the loop over the dependencies of a submitted task ends: with the
    [return] (or the exception) inside the loop, or by running to its end. *)
Inductive flow :=
  | Return (r : result TaskScheduler)
  | Continue (st : TaskScheduler).

(** The [elif] branches after the first one, up to the statement that
    stores the new status: the executor is created and started (SUBMITTED
    to RUNNING), cancelled and dropped (RUNNING to CANCELLED), the task
    leaves the queue (SUBMITTED to CANCELLED), or a core is handed back
    (any other move to a finished status). *)
Definition transition (st : TaskScheduler) (task_id : string)
           (old_status status : LocalStatus) : result TaskScheduler :=
  if bool_decide (status = RUNNING ∧ old_status = SUBMITTED) then
    let st := with_available_cores (_available_cores st - 1) st in
    let st := with_executors (<[task_id := Executor_new]> (_executors st)) st in
    match od_get task_id (_queue st) with
    | None => Raise (KeyError task_id) st
    | Some task =>
        let st := with_executors
                    (<[task_id := Executor_execute task Executor_new]> (_executors st)) st in
        Ok (with_queue (od_del task_id (_queue st)) st)
    end
  else if bool_decide (status = CANCELLED ∧ old_status = RUNNING) then
    match _executors st !! task_id with
    | None => Raise (KeyError task_id) st
    | Some executor => Ok (with_executors (delete task_id (_executors st)) st)
    end
  else if bool_decide (status = CANCELLED ∧ old_status = SUBMITTED) then
    match od_get task_id (_queue st) with
    | None => Raise (KeyError task_id) st
    | Some _ => Ok (with_queue (od_del task_id (_queue st)) st)
    end
  else if bool_decide (status ∈ FINISHED_STATES) then
    let st := with_available_cores (_available_cores st + 1) st in
    if decide (old_status = RUNNING) then
      match _executors st !! task_id with
      | None => Raise (KeyError task_id) st
      | Some _ => Ok (with_executors (delete task_id (_executors st)) st)
      end
    else Ok st
  else Ok st.

Section body.
(** The recursive call [self._set_status(_, LocalStatus.FAILED)]; [None]
    when the recursion budget is used up. *)
Variable rec : TaskScheduler → string → option (result TaskScheduler).

(** [for dep_id in self._dependents[task_id]:
       self._set_status(dep_id, LocalStatus.FAILED)] *)
Fixpoint propagate (deps : list string) (st : TaskScheduler)
  : option (result TaskScheduler) :=
  match deps with
  | [] => Some (Ok st)
  | dep_id :: deps' =>
      match rec st dep_id with
      | Some (Ok st') => propagate deps' st'
      | other => other
      end
  end.

(** [for dep_id in task.dependencies: ...] of the first branch (UNKNOWN to
    SUBMITTED) *)
Fixpoint submit_loop (task_id : string) (task : Task.t) (deps : list string)
         (st : TaskScheduler) : option flow :=
  match deps with
  | [] => Some (Continue st)
  | dep_id :: deps' =>
      match _status_map st !! dep_id with
      | None =>
          Some (Return (Raise (BackendError ("Unknown dependency '" ++ dep_id ++ "'")) st))
      | Some dep_status =>
          if bool_decide (dep_status ∈ FAILED_STATES)
          then Return <$> rec st task_id
          else submit_loop task_id task deps' (add_dependent dep_id (Task.id task) st)
      end
  end.

(** The last two statements: store the status, then fail the dependents
    when the new status is a failed one. *)
Definition finish (task_id : string) (status : LocalStatus) (st : TaskScheduler)
  : option (result TaskScheduler) :=
  let st := store_status task_id status st in
  if bool_decide (status ∈ FAILED_STATES)
  then propagate (dependents_of st task_id) st
  else Some (Ok st).

Definition set_status_body (st : TaskScheduler) (task_id : string)
           (status : LocalStatus) : option (result TaskScheduler) :=
  let old_status := get_status st task_id in
  if decide (old_status = status) then Some (Ok st)
  else if bool_decide (status = SUBMITTED ∧ old_status = UNKNOWN) then
    match od_get task_id (_queue st) with
    | None => Some (Raise (KeyError task_id) st)
    | Some task =>
        match submit_loop task_id task (Task.dependencies task) st with
        | None => None
        | Some (Return r) => Some r
        | Some (Continue st) => finish task_id status st
        end
    end
  else
    match transition st task_id old_status status with
    | Raise e st => Some (Raise e st)
    | Ok st => finish task_id status st
    end.
End body.

(** [_set_status] with a recursion budget: every recursive call of the
    source asks for [FAILED]. *)
Fixpoint set_status_aux (fuel : nat) (st : TaskScheduler) (task_id : string)
         (status : LocalStatus) : option (result TaskScheduler) :=
  match fuel with
  | O => None
  | S fuel' =>
      set_status_body (λ st' id', set_status_aux fuel' st' id' FAILED) st task_id status
  end.

(** All the ids recorded as somebody's dependent. *)
Definition all_dependents (st : TaskScheduler) : list string :=
  concat (snd <$> map_to_list (_dependents st)).

(** A budget that is always enough (see [set_status_aux_total]): a call
    goes on only from a task that is not yet FAILED and marks it FAILED
    before it recurses. *)
Definition fuel_bound (st : TaskScheduler) : nat :=
  (length (all_dependents st) + 4)%nat.

Definition _set_status (st : TaskScheduler) (task_id : string) (status : LocalStatus)
  : result TaskScheduler :=
  match set_status_aux (fuel_bound st) st task_id status with
  | Some r => r
  | None => Raise RecursionError st
  end.

(** ** The public operations *)

Definition enqueue_task (st : TaskScheduler) (task : Task.t) : result TaskScheduler :=
  let st := with_queue (od_set (Task.id task) task (_queue st)) st in
  _set_status st (Task.id task) SUBMITTED.

Definition cancel_task (st : TaskScheduler) (task_id : string) : result TaskScheduler :=
  _set_status st task_id CANCELLED.

Definition set_status (st : TaskScheduler) (task_id : string) (status : LocalStatus)
  : result TaskScheduler :=
  _set_status st task_id status.

(** *** [schedule_once] *)

(** [any(self._status_map[dep_id] in self.FAILED_STATES for dep_id in deps)] *)
Fixpoint has_failed_dep (st : TaskScheduler) (deps : list string) : exn + bool :=
  match deps with
  | [] => inr false
  | dep_id :: deps' =>
      match _status_map st !! dep_id with
      | None => inl (KeyError dep_id)
      | Some s => if bool_decide (s ∈ FAILED_STATES) then inr true
                  else has_failed_dep st deps'
      end
  end.

(** [all(self._status_map[dep_id] == LocalStatus.COMPLETED for dep_id in deps)] *)
Fixpoint can_run (st : TaskScheduler) (deps : list string) : exn + bool :=
  match deps with
  | [] => inr true
  | dep_id :: deps' =>
      match _status_map st !! dep_id with
      | None => inl (KeyError dep_id)
      | Some s => if decide (s = COMPLETED) then can_run st deps' else inr false
      end
  end.

(** The scan of the queue: the local counter [available_cores] and the
    lists [scheduled] and [failed], or the exception that ends the scan. *)
Fixpoint scan (st : TaskScheduler) (tasks : list Task.t) (available_cores : Z)
         (scheduled failed : list Task.t) : exn + (list Task.t * list Task.t) :=
  match tasks with
  | [] => inr (scheduled, failed)
  | task :: tasks' =>
      if decide (available_cores = 0) then inr (scheduled, failed)
      else
        match has_failed_dep st (Task.dependencies task) with
        | inl e => inl e
        | inr true => scan st tasks' available_cores scheduled (failed ++ [task])
        | inr false =>
            match can_run st (Task.dependencies task) with
            | inl e => inl e
            | inr true =>
                match Task.resources task !! "cores" with
                | None => inl (KeyError "cores")
                | Some cores =>
                    scan st tasks' (available_cores - cores) (scheduled ++ [task]) failed
                end
            | inr false => scan st tasks' available_cores scheduled failed
            end
        end
  end.

(** [for task in scheduled: self._set_status(task.id, LocalStatus.RUNNING)] *)
Fixpoint start_all (scheduled : list Task.t) (st : TaskScheduler) : result TaskScheduler :=
  match scheduled with
  | [] => Ok st
  | task :: scheduled' =>
      match _set_status st (Task.id task) RUNNING with
      | Ok st' => start_all scheduled' st'
      | Raise e st' => Raise e st'
      end
  end.

Definition schedule_once (st : TaskScheduler) : result TaskScheduler :=
  match scan st (snd <$> _queue st) (_available_cores st) [] [] with
  | inl e => Raise e st
  | inr (scheduled, _) => start_all scheduled st
  end.

(** ** Operations as data, and the reachable schedulers *)

Inductive op :=
  | EnqueueTask (task : Task.t)
  | CancelTask (task_id : string)
  | SetStatus (task_id : string) (status : LocalStatus)
  | ScheduleOnce.

Definition apply_op (st : TaskScheduler) (o : op) : result TaskScheduler :=
  match o with
  | EnqueueTask task => enqueue_task st task
  | CancelTask task_id => cancel_task st task_id
  | SetStatus task_id status => set_status st task_id status
  | ScheduleOnce => schedule_once st
  end.

Definition run_ops (st : TaskScheduler) (ops : list op) : TaskScheduler :=
  foldl (λ st o, state_of (apply_op st o)) st ops.

(** What [Executor.update_status] reports: RUNNING when its thread starts,
    then COMPLETED, FAILED or CANCELLED. *)
Definition executor_status (s : LocalStatus) : Prop :=
  s = RUNNING ∨ s = COMPLETED ∨ s = FAILED ∨ s = CANCELLED.

Definition op_ok (o : op) : Prop :=
  match o with
  | SetStatus _ s => executor_status s
  | _ => True
  end.

(** The schedulers a server started with [max_cores] can be in: any
    sequence of submissions, cancellations, executor reports and scheduling
    cycles, each left as it ended (returned or raised). *)
Inductive reachable (max_cores : Z) : TaskScheduler → Prop :=
  | reachable_init : reachable max_cores (init max_cores)
  | reachable_step st o :
      reachable max_cores st → op_ok o →
      reachable max_cores (state_of (apply_op st o)).

(** Small tasks for the examples. *)
Definition task (id : string) (cores : Z) (deps : list string) : Task.t :=
  Task.mk id "" None ∅ {[ "cores" := cores ]} deps.


(** The part of a call that is not recursive, for a call that changes the
    status and is not a first submission: the branch taken, then the new
    status stored. *)
Definition step (st : TaskScheduler) (task_id : string) (status : LocalStatus)
  : result TaskScheduler :=
  match transition st task_id (get_status st task_id) status with
  | Raise e st' => Raise e st'
  | Ok st' => Ok (store_status task_id status st')
  end.

(** [add_dependent] for a run of dependencies, as the loop of the first
    branch performs it. *)
Definition add_dependents (deps : list string) (id : string) (st : TaskScheduler)
  : TaskScheduler :=
  foldl (λ st dep_id, add_dependent dep_id id st) st deps.

(** * Properties *)

(** ** The ordered dictionary *)

Lemma od_get_set_eq {A} k (v : A) q : od_get k (od_set k v q) = Some v.
Proof.
  induction q as [|[k' v'] q IH]; simpl; repeat case_decide; simpl;
    repeat case_decide; congruence.
Qed.

Lemma od_get_set_ne {A} k k' (v : A) q :
  k ≠ k' → od_get k' (od_set k v q) = od_get k' q.
Proof.
  intros Hne. induction q as [|[k'' v'] q IH]; simpl; repeat case_decide; simpl;
    repeat case_decide; congruence.
Qed.

Lemma od_get_del_eq {A} k (q : list (string * A)) : od_get k (od_del k q) = None.
Proof.
  induction q as [|[k' v'] q IH]; simpl; repeat case_decide; simpl;
    repeat case_decide; congruence.
Qed.

Lemma od_get_del_ne {A} k k' (q : list (string * A)) :
  k ≠ k' → od_get k' (od_del k q) = od_get k' q.
Proof.
  intros Hne. induction q as [|[k'' v'] q IH]; simpl; repeat case_decide; simpl;
    repeat case_decide; congruence.
Qed.

(** ** Reading the fields after an update *)

Lemma get_status_store st x s y :
  get_status (store_status x s st) y = if decide (x = y) then s else get_status st y.
Proof.
  unfold get_status, store_status; simpl. rewrite lookup_insert.
  by case_decide.
Qed.

Lemma dependents_of_add d t st k :
  dependents_of (add_dependent d t st) k =
  if decide (d = k) then set_add t (dependents_of st d) else dependents_of st k.
Proof.
  unfold dependents_of at 1, add_dependent; simpl. rewrite lookup_insert.
  by case_decide.
Qed.

Lemma elem_of_set_add x y (s : list string) : x ∈ set_add y s ↔ x = y ∨ x ∈ s.
Proof. unfold set_add. case_decide; set_solver. Qed.

Lemma elem_of_dependents_add d t st k y :
  y ∈ dependents_of (add_dependent d t st) k ↔
  y ∈ dependents_of st k ∨ (k = d ∧ y = t).
Proof.
  rewrite dependents_of_add. case_decide; subst.
  - rewrite elem_of_set_add. naive_solver.
  - naive_solver.
Qed.

Lemma add_dependents_fields ds t st :
  _status_map (add_dependents ds t st) = _status_map st ∧
  _queue (add_dependents ds t st) = _queue st ∧
  _executors (add_dependents ds t st) = _executors st ∧
  _available_cores (add_dependents ds t st) = _available_cores st ∧
  _max_cores (add_dependents ds t st) = _max_cores st.
Proof.
  revert st. induction ds as [|d ds IH]; intros st; [done|].
  unfold add_dependents in *. simpl. destruct (IH (add_dependent d t st)) as (->&->&->&->&->).
  done.
Qed.

Lemma elem_of_dependents_adds ds t st k y :
  y ∈ dependents_of (add_dependents ds t st) k ↔
  y ∈ dependents_of st k ∨ (k ∈ ds ∧ y = t).
Proof.
  revert st. induction ds as [|d ds IH]; intros st.
  - simpl. set_solver.
  - unfold add_dependents in *. simpl. rewrite IH, elem_of_dependents_add. set_solver.
Qed.

Lemma get_status_add_dependents ds t st y :
  get_status (add_dependents ds t st) y = get_status st y.
Proof. unfold get_status. by destruct (add_dependents_fields ds t st) as (->&_). Qed.

Lemma not_finished s : s ∉ FINISHED_STATES → s = UNKNOWN ∨ s = SUBMITTED ∨ s = RUNNING.
Proof. unfold FINISHED_STATES. destruct s; set_solver. Qed.

Lemma get_status_with_queue q st y : get_status (with_queue q st) y = get_status st y.
Proof. done. Qed.
Lemma get_status_with_dependents d st y :
  get_status (with_dependents d st) y = get_status st y.
Proof. done. Qed.
Lemma get_status_with_executors e st y :
  get_status (with_executors e st) y = get_status st y.
Proof. done. Qed.
Lemma get_status_with_available_cores c st y :
  get_status (with_available_cores c st) y = get_status st y.
Proof. done. Qed.
Lemma get_status_add_dependent d t st y :
  get_status (add_dependent d t st) y = get_status st y.
Proof. done. Qed.
Lemma dependents_of_with_queue q st y :
  dependents_of (with_queue q st) y = dependents_of st y.
Proof. done. Qed.
Lemma dependents_of_with_status_map m st y :
  dependents_of (with_status_map m st) y = dependents_of st y.
Proof. done. Qed.
Lemma dependents_of_with_executors e st y :
  dependents_of (with_executors e st) y = dependents_of st y.
Proof. done. Qed.
Lemma dependents_of_with_available_cores c st y :
  dependents_of (with_available_cores c st) y = dependents_of st y.
Proof. done. Qed.
Lemma dependents_of_store x s st y :
  dependents_of (store_status x s st) y = dependents_of st y.
Proof. done. Qed.

Create Rewrite HintDb sched.

#[export] Hint Rewrite get_status_with_queue get_status_with_dependents
  get_status_with_executors get_status_with_available_cores
  get_status_add_dependent get_status_store get_status_add_dependents
  dependents_of_with_queue dependents_of_with_status_map
  dependents_of_with_executors dependents_of_with_available_cores
  dependents_of_store : sched.

(** Closed decidable facts, by evaluation. *)
Ltac by_compute := apply (bool_decide_unpack _); vm_compute; exact I.

(** The same for a closed fact that is false: the goal follows from it. *)
Ltac by_compute_neg :=
  let H := fresh in
  intros H; exfalso; revert H; apply (bool_decide_unpack _); vm_compute; exact I.

(** Case analysis on the branch a step takes. *)
Ltac crunch_step :=
  unfold step, transition in *;
  repeat first [ case_bool_decide | case_decide | case_match ];
  destruct_and?; simplify_eq/=; try done;
  try match goal with
      | H : ?s ∉ FINISHED_STATES |- _ => by (exfalso; apply H; by_compute)
      | H : ?s ∈ FINISHED_STATES |- _ => by (revert H; by_compute_neg)
      end.

Ltac simp_st := autorewrite with sched in *; simpl in *.

(** ** The shape of a call *)

Lemma set_status_body_same rec st x :
  set_status_body rec st x (get_status st x) = Some (Ok st).
Proof. unfold set_status_body. by rewrite decide_True. Qed.

Lemma set_status_body_step rec st x s :
  get_status st x ≠ s → ¬ (s = SUBMITTED ∧ get_status st x = UNKNOWN) →
  set_status_body rec st x s =
  match step st x s with
  | Raise e st' => Some (Raise e st')
  | Ok st' =>
      if bool_decide (s ∈ FAILED_STATES)
      then propagate rec (dependents_of st' x) st'
      else Some (Ok st')
  end.
Proof.
  intros H1 H2. unfold set_status_body, step.
  rewrite decide_False, bool_decide_eq_false_2 by done.
  by destruct (transition _ _ _ _).
Qed.

(** A call for FAILED is never a first submission. *)
Lemma set_status_body_FAILED rec st x :
  set_status_body rec st x FAILED =
  if decide (get_status st x = FAILED) then Some (Ok st)
  else match step st x FAILED with
       | Raise e st' => Some (Raise e st')
       | Ok st' => propagate rec (dependents_of st' x) st'
       end.
Proof.
  case_decide as H.
  - rewrite <- H. apply set_status_body_same.
  - rewrite set_status_body_step by naive_solver.
    destruct (step _ _ _); [|done]. by rewrite bool_decide_eq_true_2 by set_solver.
Qed.

(** The loop of the first branch registers a run of known dependencies that
    have not failed, and then either runs out of dependencies, meets an
    unknown one, or meets a failed one. *)
Lemma submit_loop_spec rec x task deps st fl :
  submit_loop rec x task deps st = Some fl →
  ∃ ds rest, deps = (ds ++ rest)%list ∧
    Forall (λ d, ∃ s, _status_map st !! d = Some s ∧ s ∉ FAILED_STATES) ds ∧
    let st' := add_dependents ds (Task.id task) st in
    (rest = [] ∧ fl = Continue st') ∨
    (∃ d rest', rest = d :: rest' ∧ _status_map st !! d = None ∧
       fl = Return (Raise (BackendError ("Unknown dependency '" ++ d ++ "'")) st')) ∨
    (∃ d rest' s r, rest = d :: rest' ∧ _status_map st !! d = Some s ∧
       s ∈ FAILED_STATES ∧ rec st' x = Some r ∧ fl = Return r).
Proof.
  revert st. induction deps as [|d deps IH]; intros st; simpl.
  - intros [= <-]. exists [], []. split_and!; [done|constructor|]. left. done.
  - destruct (_status_map st !! d) as [s|] eqn:Hd.
    + case_bool_decide as Hs.
      * intros Hr. destruct (rec st x) as [r|] eqn:Hrec; [|done]. simplify_eq/=.
        exists [], (d :: deps). split_and!; [done|constructor|].
        right; right. exists d, deps, s, r. done.
      * intros Hr. destruct (IH _ Hr) as (ds & rest & -> & Hall & Hcases).
        exists (d :: ds), rest. split_and!; [done| |].
        { constructor; [eauto|]. exact Hall. }
        exact Hcases.
    + intros [= <-]. exists [], (d :: deps). split_and!; [done|constructor|].
      right; left. exists d, deps. done.
Qed.

(** ** Calls for FAILED: what the propagation can and cannot change *)

Lemma propagate_rel (R : relation TaskScheduler) `{!PreOrder R} rec ds st r :
  (∀ st d r, rec st d = Some r → R st (state_of r)) →
  propagate rec ds st = Some r → R st (state_of r).
Proof.
  intros Hrec. revert st. induction ds as [|d ds IH]; intros st; simpl.
  - by intros [= <-].
  - destruct (rec st d) as [[st'|e st']|] eqn:Hd; [|intros [= <-]|done].
    + intros Hr. etrans; [apply (Hrec _ _ _ Hd)|]. by apply IH.
    + apply (Hrec _ _ _ Hd).
Qed.

Section failed_calls.
Context (R : relation TaskScheduler) `{!PreOrder R}.
Hypothesis R_step :
  ∀ st x, get_status st x ≠ FAILED → R st (state_of (step st x FAILED)).

Lemma failed_call_rel n st x r :
  set_status_aux n st x FAILED = Some r → R st (state_of r).
Proof using R_step PreOrder0.
  revert st x r. induction n as [|n IH]; intros st x r; [done|].
  simpl. rewrite set_status_body_FAILED. case_decide as Hold.
  - by intros [= <-].
  - specialize (R_step st x Hold). destruct (step st x FAILED) as [st'|e st'].
    + intros Hr. etrans; [exact R_step|]. eapply propagate_rel; [done| |exact Hr].
      intros ???. apply IH.
    + by intros [= <-].
Qed.
End failed_calls.

(** A predicate kept by every step is kept by the whole call. *)
Lemma failed_call_inv (P : TaskScheduler → Prop) n st x r :
  (∀ st x, get_status st x ≠ FAILED → P st → P (state_of (step st x FAILED))) →
  set_status_aux n st x FAILED = Some r → P st → P (state_of r).
Proof.
  intros Hstep Hr.
  assert (Hpre : PreOrder (λ a b : TaskScheduler, P a → P b)).
  { split; [by intros ?|]. intros a b c Hab Hbc; auto. }
  apply (failed_call_rel (λ a b, P a → P b) (PreOrder0 := Hpre)) with n x; auto.
Qed.

(** What a call for FAILED leaves alone: the dependents, the queue and the
    core budget; a status changes only to FAILED, and a known id stays
    known. *)
Definition frame_rel (a b : TaskScheduler) : Prop :=
  _dependents b = _dependents a ∧ _queue b = _queue a ∧
  _max_cores b = _max_cores a ∧
  (∀ y, get_status b y = get_status a y ∨ get_status b y = FAILED) ∧
  (∀ y, is_Some (_status_map a !! y) → is_Some (_status_map b !! y)).

#[local] Instance frame_rel_preorder : PreOrder frame_rel.
Proof.
  split.
  - intros a. unfold frame_rel. naive_solver.
  - intros a b c (?&?&?&Hs1&Hk1) (?&?&?&Hs2&Hk2). unfold frame_rel.
    split_and!; try congruence.
    + intros y. destruct (Hs2 y) as [->| ->]; auto.
    + auto.
Qed.

Lemma step_FAILED_frame st x :
  get_status st x ≠ FAILED → frame_rel st (state_of (step st x FAILED)).
Proof.
  intros Hold. unfold frame_rel. crunch_step.
  all: split_and!; try done; intros y; simp_st;
    rewrite ?lookup_insert_is_Some; try case_decide; auto.
  all: destruct (decide (x = y)); auto.
Qed.

Lemma failed_call_frame n st x r :
  set_status_aux n st x FAILED = Some r → frame_rel st (state_of r).
Proof. apply failed_call_rel; [apply _|apply step_FAILED_frame]. Qed.
(** ** Every call ends *)

Lemma elem_of_all_dependents st y :
  y ∈ all_dependents st ↔ ∃ k, y ∈ dependents_of st k.
Proof.
  unfold all_dependents, dependents_of. rewrite list_elem_of_In, in_concat. split.
  - intros (l & Hl & Hy). apply list_elem_of_In, list_elem_of_fmap in Hl.
    destruct Hl as ([k l'] & -> & Hkl). apply elem_of_map_to_list in Hkl.
    exists k. rewrite Hkl. simpl. by apply list_elem_of_In.
  - intros (k & Hy). destruct (_dependents st !! k) as [l|] eqn:Hk; simpl in Hy.
    + exists l. split; [|by apply list_elem_of_In].
      apply list_elem_of_In, list_elem_of_fmap. exists (k, l). split; [done|].
      by apply elem_of_map_to_list.
    + by apply elem_of_nil in Hy.
Qed.

(** The ids that a propagation can still move on from: the recorded
    dependents that are not FAILED. *)
Definition pending (st : TaskScheduler) : gset string :=
  filter (λ y, get_status st y ≠ FAILED) (list_to_set (all_dependents st)).

Lemma size_list_to_set_le (l : list string) :
  (size (list_to_set l : gset string) ≤ length l)%nat.
Proof.
  induction l as [|x l IH].
  - done.
  - rewrite list_to_set_cons, size_union_alt, size_singleton. simpl.
    assert (size (list_to_set l ∖ {[x]} : gset string) ≤ size (list_to_set l : gset string))%nat
      by (apply subseteq_size; set_solver).
    lia.
Qed.

Lemma size_pending_le st : (size (pending st) ≤ length (all_dependents st))%nat.
Proof.
  etrans; [|apply size_list_to_set_le]. apply subseteq_size.
  unfold pending. set_solver.
Qed.

Lemma pending_frame a b : frame_rel a b → pending b ⊆ pending a.
Proof.
  intros (Hd & _ & _ & Hs & _) y. unfold pending, all_dependents.
  rewrite !elem_of_filter, Hd. intros [Hy ?]. split; [|done].
  destruct (Hs y) as [<-|?]; done.
Qed.

Lemma propagate_total (P : TaskScheduler → Prop) rec ds st :
  (∀ st' d, P st' → d ∈ ds → ∃ r, rec st' d = Some r ∧ P (state_of r)) →
  P st → is_Some (propagate rec ds st).
Proof.
  revert st. induction ds as [|d ds IH]; intros st Hrec HP; simpl; [done|].
  destruct (Hrec st d HP) as (r & -> & HP'); [set_solver|].
  destruct r as [st'|e st']; [|done]. apply IH; [|done].
  intros st'' d' ??. apply Hrec; set_solver.
Qed.

Lemma step_dependents st x s : _dependents (state_of (step st x s)) = _dependents st.
Proof. by crunch_step. Qed.

(** A call for FAILED on a recorded dependent needs one more level than
    there are pending ids. *)
Lemma failed_call_total n st x :
  x ∈ all_dependents st → (size (pending st) ≤ n)%nat →
  is_Some (set_status_aux (S n) st x FAILED).
Proof.
  revert st x. induction n as [|n IH]; intros st x Hx Hn.
  - simpl. rewrite set_status_body_FAILED. rewrite decide_True; [done|].
    destruct (decide (get_status st x = FAILED)) as [|Hne]; [done|].
    assert (x ∈ pending st) as Hp by (unfold pending; set_solver).
    assert (size (pending st) = 0%nat) as H0 by lia.
    apply size_empty_iff in H0. set_solver.
  - cbn [set_status_aux]. rewrite set_status_body_FAILED. case_decide as Hold; [done|].
    pose proof (step_FAILED_frame st x Hold) as Hfr.
    destruct (step st x FAILED) as [st1|e st1] eqn:Hstep; [|done]. simpl in Hfr.
    assert (get_status st1 x = FAILED) as Hx1.
    { revert Hstep. crunch_step; intros; simplify_eq; simp_st; by rewrite decide_True. }
    assert (size (pending st1) ≤ n)%nat as Hn1.
    { assert (pending st1 ⊂ pending st) as Hsub.
      { split; [by apply pending_frame|]. intros Hsub.
        assert (x ∈ pending st1) as Hin.
        { apply Hsub. unfold pending. set_solver. }
        unfold pending in Hin. set_solver. }
      apply subset_size in Hsub. lia. }
    apply (propagate_total (frame_rel st1)); [|done].
    intros st' d Hst' Hd.
    destruct (IH st' d) as [r Hr].
    + apply elem_of_all_dependents. exists x. unfold dependents_of in *.
      destruct Hst' as (-> & _). done.
    + etrans; [|exact Hn1]. apply subseteq_size, pending_frame, Hst'.
    + exists r. split; [done|]. etrans; [exact Hst'|]. eapply failed_call_frame, Hr.
Qed.

Lemma set_status_aux_S n st x s :
  set_status_aux (S n) st x s =
  set_status_body (λ st' id', set_status_aux n st' id' FAILED) st x s.
Proof. done. Qed.

Lemma failed_call_total_any n st x :
  (size (pending st) < n)%nat → is_Some (set_status_aux (S n) st x FAILED).
Proof.
  intros Hn. cbn [set_status_aux]. rewrite set_status_body_FAILED.
  case_decide as Hold; [done|].
  pose proof (step_FAILED_frame st x Hold) as Hfr.
  destruct (step st x FAILED) as [st1|e st1] eqn:Hstep; [|done]. simpl in Hfr.
  destruct n as [|n]; [lia|].
  apply (propagate_total (frame_rel st1)); [|done].
  intros st' d Hst' Hd. destruct (failed_call_total n st' d) as [r Hr].
  - apply elem_of_all_dependents. exists x. unfold dependents_of in *.
    destruct Hst' as (-> & _). done.
  - assert (size (pending st') ≤ size (pending st))%nat; [|lia].
    apply subseteq_size, pending_frame. by etrans.
  - exists r. split; [done|]. etrans; [exact Hst'|]. eapply failed_call_frame, Hr.
Qed.

Lemma submit_loop_total rec x task deps st :
  (∀ ds, is_Some (rec (add_dependents ds (Task.id task) st) x)) →
  is_Some (submit_loop rec x task deps st).
Proof.
  revert st. induction deps as [|d deps IH]; intros st Hrec; simpl; [done|].
  destruct (_status_map st !! d); [|done]. case_bool_decide.
  - destruct (Hrec []) as [r Hr]. simpl in Hr. by rewrite Hr.
  - apply IH. intros ds. apply (Hrec (d :: ds)).
Qed.

Lemma size_pending_adds ds t st :
  (size (pending (add_dependents ds t st)) ≤ S (length (all_dependents st)))%nat.
Proof.
  trans (size (list_to_set (all_dependents st) ∪ {[t]} : gset string)).
  - apply subseteq_size. intros y. unfold pending.
    rewrite elem_of_filter, elem_of_union, !elem_of_list_to_set, !elem_of_all_dependents.
    intros [_ [k Hk]]. apply elem_of_dependents_adds in Hk. set_solver.
  - rewrite size_union_alt.
    pose proof (size_list_to_set_le (all_dependents st)).
    assert (size ({[t]} ∖ list_to_set (all_dependents st) : gset string) ≤ 1)%nat; [|lia].
    rewrite <- (size_singleton (C := gset string) t). apply subseteq_size. set_solver.
Qed.

(** The budget [fuel_bound] is enough for every call. *)
Lemma set_status_aux_total st x s :
  is_Some (set_status_aux (fuel_bound st) st x s).
Proof.
  unfold fuel_bound.
  replace (length (all_dependents st) + 4)%nat
    with (S (S (S (S (length (all_dependents st)))))) by lia.
  rewrite set_status_aux_S. unfold set_status_body. case_decide; [done|]. case_bool_decide as Hb.
  - destruct (od_get x (_queue st)) as [task|]; [|done].
    match goal with |- context [submit_loop ?r _ _ _ _] =>
      destruct (submit_loop_total r x task (Task.dependencies task) st) as [fl Hfl] end.
    { intros ds. apply failed_call_total_any.
      pose proof (size_pending_adds ds (Task.id task) st). lia. }
    rewrite Hfl. destruct fl as [r|st']; [done|].
    destruct Hb as [-> _]. unfold finish. by rewrite bool_decide_eq_false_2 by set_solver.
  - pose proof (step_dependents st x s) as Hdep. unfold step in Hdep.
    destruct (transition st x (get_status st x) s) as [st1|e st1]; [|done].
    unfold finish. case_bool_decide; [|done]. simpl in Hdep.
    set (st2 := store_status x s st1).
    apply (propagate_total (λ st', _dependents st' = _dependents st)); [|done].
    intros st' d Hst' Hd.
    destruct (failed_call_total (S (S (length (all_dependents st)))) st' d) as [r Hr].
    + apply elem_of_all_dependents. exists x. unfold dependents_of in *.
      by rewrite Hst', <- Hdep.
    + pose proof (size_pending_le st') as Hle. unfold all_dependents in *.
      rewrite Hst' in Hle. lia.
    + exists r. split; [done|]. apply failed_call_frame in Hr.
      destruct Hr as (-> & _). done.
Qed.

(** [_set_status] never exhausts the budget. *)
Lemma set_status_run st x s :
  set_status_aux (fuel_bound st) st x s = Some (_set_status st x s).
Proof.
  unfold _set_status. by destruct (set_status_aux_total st x s) as [r ->].
Qed.

(** ** Consistency of the reachable schedulers *)

(** No id is stored with the status UNKNOWN: an id has a status exactly
    when it is a key of the status map. *)
Definition no_unknown_stored (st : TaskScheduler) : Prop :=
  ∀ x, _status_map st !! x ≠ Some UNKNOWN.

(** Only known ids have dependents recorded. *)
Definition dependents_known (st : TaskScheduler) : Prop :=
  ∀ d t, t ∈ dependents_of st d → is_Some (_status_map st !! d).

(** The queue files every task under its own id. *)
Definition queue_keys_ok (st : TaskScheduler) : Prop :=
  ∀ k task, od_get k (_queue st) = Some task → Task.id task = k.

(** The recorded dependents go up along [rank]: the graph has no cycle. *)
Definition ranked (rank : string → nat) (st : TaskScheduler) : Prop :=
  ∀ d t, t ∈ dependents_of st d → (rank d < rank t)%nat.

Definition acyclic (st : TaskScheduler) : Prop := ∃ rank, ranked rank st.

Definition consistent (st : TaskScheduler) : Prop :=
  no_unknown_stored st ∧ dependents_known st ∧ queue_keys_ok st ∧ acyclic st.

Lemma consistent_init max_cores : consistent (init max_cores).
Proof.
  split_and!.
  - intros x. simpl. by rewrite lookup_empty.
  - intros d t. unfold dependents_of. simpl. rewrite lookup_empty. set_solver.
  - intros k task. done.
  - exists (λ _, 0%nat). intros d t. unfold dependents_of. simpl.
    rewrite lookup_empty. set_solver.
Qed.

Lemma consistent_with_executors e st :
  consistent st → consistent (with_executors e st).
Proof. done. Qed.

Lemma consistent_with_available_cores c st :
  consistent st → consistent (with_available_cores c st).
Proof. done. Qed.

Lemma consistent_with_queue q st :
  (∀ k task, od_get k q = Some task → Task.id task = k) →
  consistent st → consistent (with_queue q st).
Proof. intros Hq (?&?&_&?). by split_and!. Qed.

Lemma queue_keys_del x (q : list (string * Task.t)) :
  (∀ k task, od_get k q = Some task → Task.id task = k) →
  ∀ k task, od_get k (od_del x q) = Some task → Task.id task = k.
Proof.
  intros Hq k task. destruct (decide (x = k)) as [->|Hne].
  - by rewrite od_get_del_eq.
  - rewrite od_get_del_ne by done. apply Hq.
Qed.

Lemma queue_keys_set task (q : list (string * Task.t)) :
  (∀ k task, od_get k q = Some task → Task.id task = k) →
  ∀ k task', od_get k (od_set (Task.id task) task q) = Some task' → Task.id task' = k.
Proof.
  intros Hq k task'. destruct (decide (Task.id task = k)) as [<-|Hne].
  - rewrite od_get_set_eq. by intros [= <-].
  - rewrite od_get_set_ne by done. apply Hq.
Qed.

Lemma consistent_store x s st :
  s ≠ UNKNOWN → consistent st → consistent (store_status x s st).
Proof.
  intros Hs (Hk&Hd&?&?). split_and!; try done.
  - intros y. unfold store_status. simpl. rewrite lookup_insert.
    case_decide; [congruence|apply Hk].
  - intros d t Ht. unfold store_status. simpl. rewrite lookup_insert_is_Some.
    destruct (decide (x = d)); [by left|right]. split; [done|]. by eapply Hd.
Qed.

Lemma step_consistent st x s :
  s ≠ UNKNOWN → consistent st → consistent (state_of (step st x s)).
Proof.
  intros Hs Hc. assert (queue_keys_ok st) as Hq by apply Hc.
  crunch_step;
    repeat first [ apply consistent_store; [done|]
                 | apply consistent_with_queue; [by apply queue_keys_del|]
                 | apply consistent_with_executors
                 | apply consistent_with_available_cores ]; done.
Qed.

(** Registering a task that has no status yet under known dependencies. *)
Lemma consistent_add_dependents ds t st :
  consistent st → _status_map st !! t = None →
  Forall (λ d, is_Some (_status_map st !! d)) ds →
  consistent (add_dependents ds t st).
Proof.
  intros (Hk&Hd&Hq&[rank Hr]) Ht Hds.
  destruct (add_dependents_fields ds t st) as (Hm&Hqe&_).
  split_and!.
  - intros y. rewrite Hm. apply Hk.
  - intros d y. rewrite Hm, elem_of_dependents_adds. intros [?|[Hin ->]]; [by eapply Hd|].
    by eapply Forall_forall in Hds.
  - intros k task. rewrite Hqe. apply Hq.
  - exists (λ y, if decide (y = t) then S (max (rank t) (max_list (rank <$> ds))) else rank y).
    intros d y. rewrite elem_of_dependents_adds.
    assert (∀ d y, y ∈ dependents_of st d → d ≠ t) as Hsrc.
    { intros d' y' Hy' ->. apply Hd in Hy'. rewrite Ht in Hy'. by destruct Hy'. }
    intros [Hy|[Hin ->]].
    + rewrite (decide_False (P := d = t)) by by eapply Hsrc.
      apply Hr in Hy. case_decide; subst; lia.
    + assert (d ≠ t) as Hne.
      { intros ->. eapply Forall_forall in Hds; [|done]. rewrite Ht in Hds. by destruct Hds. }
      rewrite decide_False, decide_True by done.
      assert (rank d ≤ max_list (rank <$> ds))%nat; [|lia].
      apply max_list_elem_of_le, list_elem_of_fmap. eauto.
Qed.

Lemma failed_call_consistent n st x r :
  set_status_aux n st x FAILED = Some r → consistent st → consistent (state_of r).
Proof.
  apply failed_call_inv. intros st' x' _. by apply step_consistent.
Qed.

Lemma propagate_inv (P : TaskScheduler → Prop) rec ds st r :
  (∀ st d r, rec st d = Some r → P st → P (state_of r)) →
  propagate rec ds st = Some r → P st → P (state_of r).
Proof.
  intros Hrec.
  assert (Hpre : PreOrder (λ a b : TaskScheduler, P a → P b)).
  { split; [by intros ?|]. intros a b c Hab Hbc; auto. }
  apply (propagate_rel (λ a b, P a → P b)). done.
Qed.

Lemma unknown_not_stored st x :
  no_unknown_stored st → get_status st x = UNKNOWN → _status_map st !! x = None.
Proof.
  intros Hk. unfold get_status. destruct (_status_map st !! x) as [s|] eqn:Hx; [|done].
  simpl. intros ->. by apply Hk in Hx.
Qed.

Lemma set_status_aux_consistent n st x s r :
  s ≠ UNKNOWN → consistent st →
  set_status_aux n st x s = Some r → consistent (state_of r).
Proof.
  intros Hs Hc. destruct n as [|n]; [done|]. rewrite set_status_aux_S.
  destruct (decide (get_status st x = s)) as [<-|Hne].
  { rewrite set_status_body_same. by intros [= <-]. }
  destruct (decide (s = SUBMITTED ∧ get_status st x = UNKNOWN)) as [[-> Hold]|Hnb].
  - unfold set_status_body. rewrite decide_False, bool_decide_eq_true_2 by done.
    destruct (od_get x (_queue st)) as [task|] eqn:Hq; [|by intros [= <-]].
    destruct (submit_loop _ _ _ _ _) as [fl|] eqn:Hloop; [|done].
    apply submit_loop_spec in Hloop as (ds & rest & _ & Hds & Hcases).
    assert (Task.id task = x) as Hid by (by apply Hc).
    assert (consistent (add_dependents ds (Task.id task) st)) as Hc'.
    { apply consistent_add_dependents; [done| |].
      - rewrite Hid. apply unknown_not_stored; [apply Hc|done].
      - eapply Forall_impl; [exact Hds|]. simpl. intros d (s & -> & _). done. }
    simpl in Hcases. destruct Hcases as [[-> ->]|[(d&rest'&->&_&->)|(d&rest'&s&r'&->&_&_&Hrec&->)]].
    + unfold finish. rewrite bool_decide_eq_false_2 by set_solver.
      intros [= <-]. by apply consistent_store.
    + by intros [= <-].
    + intros [= <-]. by eapply failed_call_consistent.
  - rewrite set_status_body_step by done.
    pose proof (step_consistent st x s Hs Hc) as Hc'.
    destruct (step st x s) as [st'|e st']; [|by intros [= <-]].
    case_bool_decide; [|by intros [= <-]].
    intros Hp. eapply propagate_inv; [|exact Hp|done].
    intros st'' d r'. apply failed_call_consistent.
Qed.

Lemma set_status_consistent st x s :
  s ≠ UNKNOWN → consistent st → consistent (state_of (_set_status st x s)).
Proof.
  intros Hs Hc. eapply set_status_aux_consistent; [done|done|apply set_status_run].
Qed.

Lemma start_all_inv (P : TaskScheduler → Prop) scheduled st :
  (∀ st x, P st → P (state_of (_set_status st x RUNNING))) →
  P st → P (state_of (start_all scheduled st)).
Proof.
  intros Hstep. revert st. induction scheduled as [|task l IH]; intros st HP; [done|].
  simpl. specialize (Hstep st (Task.id task) HP).
  destruct (_set_status st (Task.id task) RUNNING) as [st'|e st']; [|done].
  by apply IH.
Qed.

Lemma schedule_once_inv (P : TaskScheduler → Prop) st :
  (∀ st x, P st → P (state_of (_set_status st x RUNNING))) →
  P st → P (state_of (schedule_once st)).
Proof.
  intros Hstep HP. unfold schedule_once.
  destruct (scan _ _ _ _ _) as [e|[scheduled failed]]; [done|].
  by apply start_all_inv.
Qed.

Lemma apply_op_consistent st o :
  op_ok o → consistent st → consistent (state_of (apply_op st o)).
Proof.
  intros Hok Hc. destruct o as [task|x|x s|]; simpl.
  - apply set_status_consistent; [done|].
    apply consistent_with_queue; [|done]. apply queue_keys_set, Hc.
  - by apply set_status_consistent.
  - apply set_status_consistent; [|done]. destruct Hok as [->|[->|[->| ->]]]; done.
  - apply schedule_once_inv; [|done]. intros. by apply set_status_consistent.
Qed.

Lemma reachable_consistent max_cores st : reachable max_cores st → consistent st.
Proof.
  induction 1; [apply consistent_init|by apply apply_op_consistent].
Qed.

(** ** Propagation goes up the ranks *)

Lemma propagate_rel_in (R : relation TaskScheduler) `{!PreOrder R} rec ds st0 st r :
  (∀ st' d r, R st0 st' → d ∈ ds → rec st' d = Some r → R st' (state_of r)) →
  R st0 st → propagate rec ds st = Some r → R st (state_of r).
Proof.
  revert st. induction ds as [|d ds IH]; intros st Hrec Hst; simpl.
  - by intros [= <-].
  - destruct (rec st d) as [[st'|e st']|] eqn:Hd; [|intros [= <-]|done].
    + intros Hr. assert (R st st') as H1.
      { apply (Hrec st d (Ok st')); [done|set_solver|done]. }
      etrans; [exact H1|]. apply IH; [|by etrans|done].
      intros st'' d' r' ? ? ?. apply (Hrec st'' d' r'); [done|set_solver|done].
    + apply (Hrec st d (Raise e st')); [done|set_solver|done].
Qed.

Section ranks.
Variable rank : string → nat.

(** Nothing of rank below [k] changes its status. *)
Definition above (k : nat) (a b : TaskScheduler) : Prop :=
  frame_rel a b ∧ ∀ y, (rank y < k)%nat → get_status b y = get_status a y.

#[local] Instance above_preorder k : PreOrder (above k).
Proof.
  split.
  - intros a. split; [done|auto].
  - intros a b c [F1 H1] [F2 H2]. split; [by etrans|].
    intros y Hy. by rewrite H2, H1.
Qed.

Lemma above_mono k k' a b : (k ≤ k')%nat → above k' a b → above k a b.
Proof. intros Hk [F H]. split; [done|]. intros y Hy. apply H. lia. Qed.

Lemma ranked_frame a b : frame_rel a b → ranked rank a → ranked rank b.
Proof.
  intros (Hd & _) Hr d t. unfold dependents_of. rewrite Hd. apply Hr.
Qed.

Lemma failed_call_above n st x r :
  ranked rank st → set_status_aux n st x FAILED = Some r →
  above (rank x) st (state_of r).
Proof.
  revert st x r. induction n as [|n IH]; intros st x r Hrk; [done|].
  rewrite set_status_aux_S, set_status_body_FAILED. case_decide as Hold.
  { by intros [= <-]. }
  pose proof (step_FAILED_frame st x Hold) as Hfr.
  assert (above (rank x) st (state_of (step st x FAILED))) as Hab.
  { split; [done|]. intros y Hy. assert (x ≠ y) by (intros ->; lia).
    clear Hfr. crunch_step; simp_st; by rewrite ?decide_False by done. }
  assert (dependents_of (state_of (step st x FAILED)) x = dependents_of st x) as Hdx.
  { unfold dependents_of. by rewrite step_dependents. }
  destruct (step st x FAILED) as [st1|e st1]; [|by intros [= <-]].
  simpl in *. rewrite Hdx. intros Hp. etrans; [exact Hab|].
  apply (above_mono _ (S (rank x))); [lia|].
  eapply (propagate_rel_in _ _ _ st1); [|done|exact Hp].
  intros st' d r' [Hfr' _] Hd Hr'.
  apply (above_mono _ (rank d)).
  - apply Hrk in Hd. lia.
  - apply IH; [|done]. eapply ranked_frame; [|done]. by etrans.
Qed.

(** After a step that stored [s], the propagation leaves the status of the
    task itself alone. *)
Lemma propagate_keeps_status n st x r :
  ranked rank st → propagate (λ st' id', set_status_aux n st' id' FAILED)
                             (dependents_of st x) st = Some r →
  frame_rel st (state_of r) ∧ get_status (state_of r) x = get_status st x.
Proof.
  intros Hrk Hp. assert (above (S (rank x)) st (state_of r)) as [F H].
  { eapply (propagate_rel_in _ _ _ st); [|done|exact Hp].
    intros st' d r' [Hfr' _] Hd Hr'. apply (above_mono _ (rank d)).
    - apply Hrk in Hd. lia.
    - apply failed_call_above with n; [|done]. by eapply ranked_frame. }
  split; [done|]. apply H. lia.
Qed.
End ranks.

Lemma step_Ok_status st x s st1 :
  step st x s = Ok st1 → get_status st1 x = s ∧ _dependents st1 = _dependents st.
Proof.
  intros Hs. pose proof (step_dependents st x s) as Hd. rewrite Hs in Hd.
  split; [|done]. revert Hs. unfold step.
  destruct (transition _ _ _ _); intros [= <-]. simp_st. by rewrite decide_True.
Qed.

(** A call that changes the status and is not a first submission either
    raises in its own branch, or ends with the requested status stored. *)
Lemma top_call_status n st x s r :
  acyclic st → get_status st x ≠ s →
  ¬ (s = SUBMITTED ∧ get_status st x = UNKNOWN) →
  set_status_aux (S n) st x s = Some r →
  match step st x s with
  | Raise e st' => r = Raise e st'
  | Ok _ => get_status (state_of r) x = s
  end.
Proof.
  intros [rank Hrk] Hne Hnb. rewrite set_status_aux_S, set_status_body_step by done.
  destruct (step st x s) as [st1|e st1] eqn:Hstep; [|by intros [= <-]].
  apply step_Ok_status in Hstep as [Hs Hd].
  case_bool_decide; [|by intros [= <-]].
  intros Hp. eapply (propagate_keeps_status rank) in Hp as [_ ->]; [done|].
  intros d t. unfold dependents_of. rewrite Hd. apply Hrk.
Qed.

(** ** Requests on a task that has a status already *)

Lemma fuel_bound_S st : fuel_bound st = S (length (all_dependents st) + 3).
Proof. unfold fuel_bound. lia. Qed.

Lemma set_status_same st x : _set_status st x (get_status st x) = Ok st.
Proof.
  pose proof (set_status_run st x (get_status st x)) as Hrun.
  rewrite fuel_bound_S, set_status_aux_S, set_status_body_same in Hrun. congruence.
Qed.

Lemma step_CANCELLED_raise st x e st' :
  step st x CANCELLED = Raise e st' → st' = st.
Proof. crunch_step; naive_solver. Qed.

Lemma step_finished_ok st x s :
  get_status st x ∈ FINISHED_STATES → ∃ st1, step st x s = Ok st1.
Proof.
  intros Hold. unfold FINISHED_STATES in Hold. crunch_step; eauto.
  all: match goal with H : get_status _ _ = _ |- _ => rewrite H in Hold end; set_solver.
Qed.

Lemma reachable_run_ops max_cores ops :
  Forall op_ok ops → reachable max_cores (run_ops (init max_cores) ops).
Proof.
  intros Hops. unfold run_ops. generalize (reachable_init max_cores).
  generalize (init max_cores). induction Hops as [|o ops Ho _ IH]; intros st Hst; [done|].
  simpl. apply IH. by constructor.
Qed.

Ltac solve_ops :=
  apply reachable_run_ops;
  repeat (apply Forall_cons_2; [first [exact I | unfold op_ok, executor_status; auto 6]|]);
  apply Forall_nil_2.

(** C8: in every reachable scheduler, cancelling a task a second time
    leaves the scheduler exactly as the first cancellation left it. *)
Theorem cancel_task_idempotent max_cores st t :
  reachable max_cores st →
  state_of (cancel_task (state_of (cancel_task st t)) t) = state_of (cancel_task st t).
Proof.
  intros Hr. apply reachable_consistent in Hr as (_&_&_&Hacyc). unfold cancel_task.
  destruct (decide (get_status st t = CANCELLED)) as [Heq|Hne].
  { rewrite <- Heq, set_status_same. simpl. by rewrite set_status_same. }
  pose proof (set_status_run st t CANCELLED) as Hrun. rewrite fuel_bound_S in Hrun.
  apply top_call_status in Hrun; [|done|done|naive_solver].
  destruct (step st t CANCELLED) as [st1|e st1] eqn:Hstep.
  - rewrite <- Hrun at 2. by rewrite set_status_same.
  - apply step_CANCELLED_raise in Hstep as ->. rewrite Hrun. simpl. by rewrite Hrun.
Qed.

Lemma cancel_task_idempotent_witness :
  let st := run_ops (init 2) [EnqueueTask (task "a" 1 []); EnqueueTask (task "b" 1 ["a"])] in
  reachable 2 st ∧
  state_of (cancel_task (state_of (cancel_task st "a")) "a") = state_of (cancel_task st "a").
Proof.
  assert (reachable 2 (run_ops (init 2)
            [EnqueueTask (task "a" 1 []); EnqueueTask (task "b" 1 ["a"])])) as Hr.
  { solve_ops. }
  split; [exact Hr|]. exact (cancel_task_idempotent 2 _ "a" Hr).
Defined.

(** C2, as the code has it: a request for the status a task already has is
    a no-op, but a request for another status is carried out also when the
    task is COMPLETED, FAILED or CANCELLED: the requested status is stored,
    so a task can leave a finished status. *)
Theorem finished_status_overwritten max_cores st t s :
  reachable max_cores st → get_status st t ∈ FINISHED_STATES →
  (s = get_status st t → _set_status st t s = Ok st) ∧
  (s ≠ get_status st t → get_status (state_of (_set_status st t s)) t = s).
Proof.
  intros Hr Hold. split.
  { intros ->. apply set_status_same. }
  intros Hne. apply reachable_consistent in Hr as (_&_&_&Hacyc).
  pose proof (set_status_run st t s) as Hrun. rewrite fuel_bound_S in Hrun.
  apply top_call_status in Hrun; [|done|done|].
  - destruct (step_finished_ok st t s Hold) as [st1 Hst1]. by rewrite Hst1 in Hrun.
  - intros [_ Hu]. rewrite Hu in Hold. unfold FINISHED_STATES in Hold. set_solver.
Qed.

(** The counterexample to C2: a COMPLETED task is moved to CANCELLED by
    [cancel_task]. *)
Lemma finished_status_left :
  let st := run_ops (init 2) [EnqueueTask (task "a" 1 []); ScheduleOnce;
                              SetStatus "a" COMPLETED] in
  reachable 2 st ∧ get_status st "a" = COMPLETED ∧
  get_status (state_of (cancel_task st "a")) "a" = CANCELLED.
Proof.
  split; [|by vm_compute]. solve_ops.
Qed.

Lemma finished_status_overwritten_witness :
  let st := run_ops (init 2) [EnqueueTask (task "a" 1 []); ScheduleOnce;
                              SetStatus "a" COMPLETED] in
  get_status (state_of (_set_status st "a" CANCELLED)) "a" = CANCELLED.
Proof.
  refine (proj2 (finished_status_overwritten 2 _ "a" CANCELLED _ _) _).
  - solve_ops.
  - by_compute.
  - by vm_compute.
Defined.

(** C4, as the code has it: cancelling an id that has no status returns
    normally and records the id as CANCELLED; the queue, the executors, the
    dependents and the status of every other id stay as they were. *)
Theorem cancel_unknown_records max_cores st x :
  reachable max_cores st → get_status st x = UNKNOWN →
  ∃ st', cancel_task st x = Ok st' ∧ get_status st' x = CANCELLED ∧
         (∀ y, y ≠ x → get_status st' y = get_status st y) ∧
         _queue st' = _queue st ∧ _executors st' = _executors st ∧
         _dependents st' = _dependents st.
Proof.
  intros Hr Hold. apply reachable_consistent in Hr as (Hk&Hd&_&_).
  assert (dependents_of st x = []) as Hnil.
  { destruct (dependents_of st x) as [|t l] eqn:Hl; [done|].
    destruct (Hd x t) as [s Hs]; [rewrite Hl; set_solver|].
    by rewrite (unknown_not_stored st x) in Hs. }
  exists (store_status x CANCELLED (with_available_cores (_available_cores st + 1) st)).
  split_and!; try done.
  - unfold cancel_task. pose proof (set_status_run st x CANCELLED) as Hrun.
    rewrite fuel_bound_S, set_status_aux_S, set_status_body_step in Hrun
      by (rewrite Hold; naive_solver).
    assert (step st x CANCELLED =
            Ok (store_status x CANCELLED (with_available_cores (_available_cores st + 1) st)))
      as Hstep.
    { crunch_step; try congruence. }
    rewrite Hstep, bool_decide_eq_true_2 in Hrun by (unfold FAILED_STATES; set_solver).
    simp_st. rewrite Hnil in Hrun. simpl in Hrun. congruence.
  - simp_st. by rewrite decide_True.
  - intros y Hy. simp_st. by rewrite decide_False.
Qed.

(** The counterexample to C4: on a fresh scheduler, cancelling the unseen
    id "x" changes its status to CANCELLED. *)
Lemma cancel_unknown_not_noop :
  get_status (init 2) "x" = UNKNOWN ∧
  get_status (state_of (cancel_task (init 2) "x")) "x" = CANCELLED ∧
  state_of (cancel_task (init 2) "x") ≠ init 2.
Proof.
  split_and!; [done|by vm_compute|].
  intros Heq. apply (f_equal (λ st, get_status st "x")) in Heq. by vm_compute in Heq.
Qed.

Lemma cancel_unknown_records_witness :
  ∃ st', cancel_task (init 2) "x" = Ok st' ∧ get_status st' "x" = CANCELLED ∧
         (∀ y, y ≠ "x" → get_status st' y = get_status (init 2) y) ∧
         _queue st' = _queue (init 2) ∧ _executors st' = _executors (init 2) ∧
         _dependents st' = _dependents (init 2).
Proof.
  apply (cancel_unknown_records 2 (init 2) "x"); [apply reachable_init|reflexivity].
Defined.

(** ** Failure propagation *)

(** [chain st a b]: [b] is reached from [a] along recorded dependents, and
    no task strictly between them is FAILED already. *)
Inductive chain (st : TaskScheduler) : string → string → Prop :=
  | chain_direct a b : b ∈ dependents_of st a → chain st a b
  | chain_step a m b :
      m ∈ dependents_of st a → get_status st m ≠ FAILED → chain st m b →
      chain st a b.

(** Every task that became FAILED between [a] and [b] has all its
    dependents FAILED in [b]. *)
Definition closed (a b : TaskScheduler) : Prop :=
  ∀ z, get_status a z ≠ FAILED → get_status b z = FAILED →
       ∀ d, d ∈ dependents_of a z → get_status b d = FAILED.

Lemma closed_refl a : closed a a.
Proof. intros z H1 H2. done. Qed.

Lemma closed_trans a b c :
  frame_rel a b → frame_rel b c → closed a b → closed b c → closed a c.
Proof.
  intros (Hd1&_) (_&_&_&Hs2&_) Hab Hbc z Hza Hzc d Hd.
  destruct (decide (get_status b z = FAILED)) as [Hzb|Hzb].
  - specialize (Hab z Hza Hzb d Hd). destruct (Hs2 d) as [->|]; done.
  - apply (Hbc z); [done|done|]. unfold dependents_of in *. by rewrite Hd1.
Qed.

Lemma propagate_closed rec ds st st' :
  (∀ st d r, rec st d = Some r → frame_rel st (state_of r)) →
  (∀ st d st', rec st d = Some (Ok st') → closed st st' ∧ get_status st' d = FAILED) →
  propagate rec ds st = Some (Ok st') →
  frame_rel st st' ∧ closed st st' ∧ ∀ d, d ∈ ds → get_status st' d = FAILED.
Proof.
  intros Hfr Hrec. revert st. induction ds as [|d ds IH]; intros st; simpl.
  - intros [= <-]. split_and!; [done|apply closed_refl|set_solver].
  - destruct (rec st d) as [[st1|e st1]|] eqn:Hd; [|done..].
    intros Hp. destruct (IH _ Hp) as (F2 & C2 & Hds).
    pose proof (Hfr _ _ _ Hd) as F1. destruct (Hrec _ _ _ Hd) as [C1 Hd1]. simpl in F1.
    split_and!; [by etrans|by eapply closed_trans|].
    intros d' [Heq|Hd']%elem_of_cons; [|by apply Hds]. subst d'.
    destruct F2 as (_&_&_&Hs&_). destruct (Hs d) as [->|]; done.
Qed.

Lemma step_status_other st x s y :
  x ≠ y → get_status (state_of (step st x s)) y = get_status st y.
Proof. intros Hne. crunch_step; simp_st; by rewrite ?decide_False by done. Qed.

Lemma failed_call_closed n st x st' :
  set_status_aux n st x FAILED = Some (Ok st') →
  closed st st' ∧ get_status st' x = FAILED.
Proof.
  revert st x st'. induction n as [|n IH]; intros st x st'; [done|].
  rewrite set_status_aux_S, set_status_body_FAILED. case_decide as Hold.
  { intros [= <-]. split; [apply closed_refl|done]. }
  pose proof (step_FAILED_frame st x Hold) as F1.
  destruct (step st x FAILED) as [st1|e st1] eqn:Hstep; [|done]. simpl in F1.
  intros Hp. apply propagate_closed in Hp as (F2 & C2 & Hds);
    [|intros ???; apply failed_call_frame|apply IH].
  apply step_Ok_status in Hstep as Hx1. destruct Hx1 as [Hx1 Hdep].
  assert (get_status st' x = FAILED) as Hx'.
  { destruct F2 as (_&_&_&Hs&_). destruct (Hs x) as [->|]; done. }
  split; [|done]. intros z Hz Hz' d Hd.
  assert (dependents_of st1 z = dependents_of st z) as Hdz
    by (unfold dependents_of; by rewrite Hdep).
  destruct (decide (x = z)) as [->|Hne].
  - apply Hds. by rewrite Hdz.
  - apply (C2 z); [|done|by rewrite Hdz].
    pose proof (step_status_other st x FAILED z Hne) as Hsz. rewrite Hstep in Hsz.
    simpl in Hsz. by rewrite Hsz.
Qed.

(** ** What a call can raise *)

Lemma step_raises st x s e st' : step st x s = Raise e st' → e = KeyError x.
Proof. intros H. by crunch_step. Qed.

Lemma propagate_raises rec ds st e st' (P : exn → Prop) :
  (∀ st d e st', rec st d = Some (Raise e st') → P e) →
  propagate rec ds st = Some (Raise e st') → P e.
Proof.
  intros Hrec. revert st. induction ds as [|d ds IH]; intros st; simpl; [done|].
  destruct (rec st d) as [[st1|e1 st1]|] eqn:Hd; [apply IH| |done].
  intros [= -> ->]. by eapply Hrec.
Qed.

Lemma failed_call_raises n st x e st' :
  set_status_aux n st x FAILED = Some (Raise e st') → ∃ k, e = KeyError k.
Proof.
  revert st x e st'. induction n as [|n IH]; intros st x e st'; [done|].
  rewrite set_status_aux_S, set_status_body_FAILED. case_decide; [done|].
  destruct (step st x FAILED) as [st1|e1 st1] eqn:Hstep.
  - intros Hp.
    eapply (propagate_raises _ _ _ _ _ (λ e, ∃ k, e = KeyError k)); [|exact Hp].
    intros ????. apply IH.
  - intros [= -> ->]. apply step_raises in Hstep. eauto.
Qed.

Lemma chain_failed st st' a b :
  closed st st' → chain st a b →
  (∀ d, d ∈ dependents_of st a → get_status st' d = FAILED) →
  get_status st' b = FAILED.
Proof.
  intros Hcl Hc. induction Hc as [a b Hb|a m b Hm Hwhite _ IH]; intros Ha.
  - by apply Ha.
  - apply IH. apply Hcl; [done|]. by apply Ha.
Qed.

(** C5, as the code has it: when [_set_status] moves a task [a] to FAILED
    or CANCELLED, the call ends; if it returns, every task [b] reached from
    [a] along recorded dependents, through tasks that were not FAILED
    before the call, has the status FAILED when the call returns.  The only
    exception the call can raise is a [KeyError]. *)
Theorem failure_propagates st a s b :
  s ∈ FAILED_STATES → get_status st a ≠ s → chain st a b →
  match _set_status st a s with
  | Ok st' => get_status st' b = FAILED
  | Raise e _ => ∃ k, e = KeyError k
  end.
Proof.
  intros Hs Hne Hchain. pose proof (set_status_run st a s) as Hrun.
  rewrite fuel_bound_S, set_status_aux_S, set_status_body_step in Hrun;
    [|done|unfold FAILED_STATES in Hs; set_solver].
  rewrite bool_decide_eq_true_2 in Hrun by done.
  destruct (step st a s) as [st1|e1 st1] eqn:Hstep.
  2: { injection Hrun as <-. apply step_raises in Hstep. eauto. }
  destruct (_set_status st a s) as [st'|e st'].
  2: { eapply (propagate_raises _ _ _ _ _ (λ e, ∃ k, e = KeyError k)); [|exact Hrun].
       intros ????. apply failed_call_raises. }
  apply propagate_closed in Hrun as (F2 & C2 & Hds);
    [|intros ???; apply failed_call_frame|intros ???; apply failed_call_closed].
  apply step_Ok_status in Hstep as Hx1. destruct Hx1 as [Hx1 Hdep].
  assert (∀ z, dependents_of st1 z = dependents_of st z) as Hdz
    by (intros z; unfold dependents_of; by rewrite Hdep).
  assert (∀ z, z = a ∨ (get_status st z ≠ FAILED ∧ get_status st' z = FAILED) →
               ∀ d, d ∈ dependents_of st z → get_status st' d = FAILED) as Hall.
  { intros z Hz d Hd. destruct (decide (a = z)) as [<-|Hna].
    - apply Hds. by rewrite Hdz.
    - destruct Hz as [->|[Hz Hz']]; [done|]. apply (C2 z); [|done|by rewrite Hdz].
      pose proof (step_status_other st a s z Hna) as Hsz. rewrite Hstep in Hsz.
      simpl in Hsz. by rewrite Hsz. }
  apply (chain_failed st st' a b); [|done|].
  - intros z Hz Hz'. apply Hall. by right.
  - apply Hall. by left.
Qed.

Lemma failure_propagates_witness :
  let st := run_ops (init 2) [EnqueueTask (task "a" 1 []); EnqueueTask (task "b" 1 ["a"]);
                              EnqueueTask (task "c" 1 ["b"])] in
  chain st "a" "c" ∧
  get_status (state_of (_set_status st "a" CANCELLED)) "c" = FAILED.
Proof.
  intros st.
  assert (chain st "a" "c") as Hc.
  { apply chain_step with "b"; [by_compute|by_compute|].
    apply chain_direct. by_compute. }
  assert (CANCELLED ∈ FAILED_STATES) as Hs by by_compute.
  assert (get_status st "a" ≠ CANCELLED) as Hne by (by vm_compute).
  split; [exact Hc|].
  pose proof (failure_propagates st "a" CANCELLED "c" Hs Hne Hc) as H.
  destruct (_set_status st "a" CANCELLED) as [st'|e st'] eqn:Hr; [exact H|].
  exfalso. by vm_compute in Hr.
Defined.

(** The counterexample to C5: "e" depends on "d", which depends on "a" and
    "a2".  Cancelling "a2" fails "d" and "e"; "e" is then cancelled.  When
    "a" is cancelled afterwards, "d" is FAILED already, the propagation
    stops there, and "e" stays CANCELLED. *)
Lemma failure_not_transitive :
  let st := run_ops (init 2)
              [EnqueueTask (task "a" 1 []); EnqueueTask (task "a2" 1 []);
               EnqueueTask (task "d" 1 ["a"; "a2"]); EnqueueTask (task "e" 1 ["d"]);
               CancelTask "a2"; CancelTask "e"] in
  reachable 2 st ∧
  "d" ∈ dependents_of st "a" ∧ "e" ∈ dependents_of st "d" ∧
  get_status st "a" = SUBMITTED ∧
  ∃ st', cancel_task st "a" = Ok st' ∧ get_status st' "a" = CANCELLED ∧
         get_status st' "e" = CANCELLED ∧ get_status st' "e" ≠ FAILED.
Proof.
  split; [solve_ops|]. split; [by_compute|].
  split; [by_compute|]. split; [by vm_compute|].
  eexists. split; [by vm_compute|]. by vm_compute.
Qed.

(** ** Submissions *)

Lemma submit_loop_prefix rec x task ds rest st :
  Forall (λ d, ∃ s, _status_map st !! d = Some s ∧ s ∉ FAILED_STATES) ds →
  submit_loop rec x task (ds ++ rest) st =
  submit_loop rec x task rest (add_dependents ds (Task.id task) st).
Proof.
  revert st. induction ds as [|d ds IH]; intros st Hds; [done|].
  apply Forall_cons in Hds as [(s & Hs & Hnf) Hds]. simpl.
  rewrite Hs, bool_decide_eq_false_2 by done. by rewrite IH.
Qed.

(** C10: in a reachable scheduler, when [enqueue_task] raises
    [BackendError] the submission is not undone: the task is in the queue
    and its id has no entry in the status map.  The error names a
    dependency of the task that has no status. *)
Theorem enqueue_error_not_rolled_back max_cores st task msg st' :
  reachable max_cores st →
  enqueue_task st task = Raise (BackendError msg) st' →
  od_get (Task.id task) (_queue st') = Some task ∧
  _status_map st' !! Task.id task = None ∧
  ∃ d, d ∈ Task.dependencies task ∧ _status_map st !! d = None ∧
       msg = "Unknown dependency '" ++ d ++ "'".
Proof.
  intros Hr. apply reachable_consistent in Hr as (Hk&_). unfold enqueue_task.
  set (x := Task.id task). set (st0 := with_queue (od_set x task (_queue st)) st).
  pose proof (set_status_run st0 x SUBMITTED) as Hrun. intros Heq. rewrite Heq in Hrun.
  clear Heq. rewrite fuel_bound_S, set_status_aux_S in Hrun.
  destruct (decide (get_status st0 x = SUBMITTED)) as [Hs|Hs].
  { rewrite <- Hs, set_status_body_same in Hrun. done. }
  destruct (decide (get_status st0 x = UNKNOWN)) as [Hu|Hu].
  - unfold set_status_body in Hrun.
    rewrite decide_False, bool_decide_eq_true_2 in Hrun by done.
    assert (od_get x (_queue st0) = Some task) as Hq by apply od_get_set_eq.
    rewrite Hq in Hrun.
    destruct (submit_loop _ _ _ _ _) as [fl|] eqn:Hloop; [|done].
    apply submit_loop_spec in Hloop as (ds & rest & Hdeps & Hds & Hcases). simpl in Hcases.
    destruct (add_dependents_fields ds x st0) as (Hm & Hqe & _).
    destruct Hcases as [[-> ->]|[(d&rest'&->&Hd&->)|(d&rest'&s&r'&->&_&_&Hrec&->)]].
    + unfold finish in Hrun. by rewrite bool_decide_eq_false_2 in Hrun by set_solver.
    + injection Hrun as <- <-. fold x. rewrite Hm, Hqe. split_and!; [done| |].
      * apply (unknown_not_stored st); done.
      * exists d. split_and!; [|done..]. rewrite Hdeps. set_solver.
    + injection Hrun as ->. apply failed_call_raises in Hrec as [k Hk']. done.
  - rewrite set_status_body_step in Hrun by naive_solver.
    destruct (step st0 x SUBMITTED) as [st1|e st1] eqn:Hstep.
    + by rewrite bool_decide_eq_false_2 in Hrun by set_solver.
    + apply step_raises in Hstep. congruence.
Qed.

Lemma enqueue_error_not_rolled_back_witness :
  od_get "a" (_queue (state_of (enqueue_task (init 2) (task "a" 1 ["x"])))) =
    Some (task "a" 1 ["x"]) ∧
  _status_map (state_of (enqueue_task (init 2) (task "a" 1 ["x"]))) !! "a" = None.
Proof.
  assert (enqueue_task (init 2) (task "a" 1 ["x"]) =
          Raise (BackendError "Unknown dependency 'x'")
                (state_of (enqueue_task (init 2) (task "a" 1 ["x"])))) as Hraise
    by (by vm_compute).
  destruct (enqueue_error_not_rolled_back 2 (init 2) (task "a" 1 ["x"]) _ _
              (reachable_init 2) Hraise) as (H1 & H2 & _).
  exact (conj H1 H2).
Defined.

(** C7, as the code has it: when the id of the submitted task has no status
    yet and, in the iteration order of its dependencies, an unknown id comes
    before any dependency that is FAILED or CANCELLED, [enqueue_task] raises
    [BackendError] with the message "Unknown dependency '<id>'" for the
    first unknown id. *)
Theorem unknown_dependency_raises st task ds d rest :
  get_status st (Task.id task) = UNKNOWN →
  Task.dependencies task = (ds ++ d :: rest)%list →
  Forall (λ d', ∃ s, _status_map st !! d' = Some s ∧ s ∉ FAILED_STATES) ds →
  _status_map st !! d = None →
  ∃ st', enqueue_task st task =
         Raise (BackendError ("Unknown dependency '" ++ d ++ "'")) st'.
Proof.
  intros Hu Hdeps Hds Hd. unfold enqueue_task.
  set (x := Task.id task). set (st0 := with_queue (od_set x task (_queue st)) st).
  exists (add_dependents ds x st0).
  pose proof (set_status_run st0 x SUBMITTED) as Hrun.
  rewrite fuel_bound_S, set_status_aux_S in Hrun. unfold set_status_body in Hrun.
  assert (get_status st0 x = UNKNOWN) as Hu0 by done.
  rewrite decide_False, bool_decide_eq_true_2 in Hrun by (rewrite ?Hu0; done).
  assert (od_get x (_queue st0) = Some task) as Hq by apply od_get_set_eq.
  rewrite Hq, Hdeps, submit_loop_prefix in Hrun by done. simpl in Hrun.
  destruct (add_dependents_fields ds (Task.id task) st0) as (Hm & _).
  rewrite Hm in Hrun. simpl in Hrun. rewrite Hd in Hrun. by injection Hrun as <-.
Qed.

Lemma unknown_dependency_raises_witness :
  let st := run_ops (init 2) [EnqueueTask (task "a" 1 [])] in
  ∃ st', enqueue_task st (task "b" 1 ["a"; "x"; "y"]) =
         Raise (BackendError "Unknown dependency 'x'") st'.
Proof.
  intros st.
  apply (unknown_dependency_raises st (task "b" 1 ["a"; "x"; "y"]) ["a"] "x" ["y"]).
  - reflexivity.
  - reflexivity.
  - apply Forall_cons_2; [|apply Forall_nil_2]. exists SUBMITTED.
    split; [by vm_compute|]. unfold FAILED_STATES. set_solver.
  - by vm_compute.
Defined.

(** The counterexample to C7: the id "a" is known and queued; submitting it
    again with the unseen dependency "x" returns without an error. *)
Lemma unknown_dependency_unchecked :
  let st := run_ops (init 2) [EnqueueTask (task "a" 1 [])] in
  reachable 2 st ∧ "x" ∈ Task.dependencies (task "a" 1 ["x"]) ∧
  get_status st "x" = UNKNOWN ∧ _status_map st !! "x" = None ∧
  ∃ st', enqueue_task st (task "a" 1 ["x"]) = Ok st'.
Proof.
  split; [solve_ops|]. split; [simpl; set_solver|].
  split; [by vm_compute|]. split; [by vm_compute|].
  eexists. by vm_compute.
Qed.

(** A second way past the check: a dependency that is CANCELLED comes first
    in the iteration, so the new task is failed and the unseen "x" is never
    looked at. *)
Lemma unknown_dependency_after_failed :
  let st := run_ops (init 2) [EnqueueTask (task "f" 1 []); CancelTask "f"] in
  get_status st "b" = UNKNOWN ∧ _status_map st !! "x" = None ∧
  ∃ st', enqueue_task st (task "b" 1 ["f"; "x"]) = Ok st' ∧
         get_status st' "b" = FAILED.
Proof.
  split; [by vm_compute|]. split; [by vm_compute|].
  eexists. split; by vm_compute.
Qed.

(** ** The queue and the executors against the status map *)

(** Every SUBMITTED task is in the queue, and every task that has an
    executor is RUNNING. *)
Definition tables_sound (st : TaskScheduler) : Prop :=
  (∀ x, get_status st x = SUBMITTED → is_Some (od_get x (_queue st))) ∧
  (∀ x, is_Some (_executors st !! x) → get_status st x = RUNNING).

(** As [op_ok], and no id is submitted again while it is RUNNING. *)
Definition op_ok_at (st : TaskScheduler) (o : op) : Prop :=
  match o with
  | EnqueueTask task => get_status st (Task.id task) ≠ RUNNING
  | SetStatus _ s => executor_status s
  | _ => True
  end.

Inductive reachable_nr (max_cores : Z) : TaskScheduler → Prop :=
  | reachable_nr_init : reachable_nr max_cores (init max_cores)
  | reachable_nr_step st o :
      reachable_nr max_cores st → op_ok_at st o →
      reachable_nr max_cores (state_of (apply_op st o)).

Lemma tables_sound_init max_cores : tables_sound (init max_cores).
Proof.
  split; intros x; unfold get_status; simpl; rewrite lookup_empty.
  - done.
  - by intros [? ?].
Qed.

Lemma od_get_del_is_Some {A} x y (q : list (string * A)) :
  x ≠ y → is_Some (od_get y q) → is_Some (od_get y (od_del x q)).
Proof. intros Hne. by rewrite od_get_del_ne. Qed.

Lemma step_tables_sound st x s :
  s ≠ UNKNOWN → get_status st x ≠ s →
  (s = SUBMITTED → is_Some (od_get x (_queue st)) ∧ get_status st x ≠ RUNNING) →
  tables_sound st → tables_sound (state_of (step st x s)).
Proof.
  intros Hs Hne Hsub [Hq He].
  assert (get_status st x ≠ RUNNING → _executors st !! x = None) as Hnx.
  { intros Hnr. destruct (_executors st !! x) eqn:Hx; [|done]. destruct Hnr. eauto. }
  assert (get_status st x = SUBMITTED → is_Some (od_get x (_queue st))) as Hqx by auto.
  crunch_step.
  all: split; intros y; simp_st.
  all: destruct (decide (x = y)) as [<-|Hxy];
    rewrite ?decide_True, ?decide_False by done;
    rewrite ?lookup_insert_eq, ?lookup_insert_ne, ?lookup_delete_eq, ?lookup_delete_ne,
            ?od_get_del_eq, ?od_get_del_ne by done;
    try done; auto.
  all: try (intros Hy; first [ by apply is_Some_None in Hy
                             | apply He in Hy; congruence
                             | apply Hqx in H3; rewrite H1 in H3; by apply is_Some_None in H3 ]).
  all: try (intros ->; by apply Hsub).
  intros Hy. apply He in Hy.
  match goal with H : s ∉ FINISHED_STATES |- _ =>
    destruct (not_finished s H) as [->|[->| ->]] end; [done| |done].
  by destruct Hsub.
Qed.


Lemma tables_sound_add_dependents ds t st :
  tables_sound st → tables_sound (add_dependents ds t st).
Proof.
  intros [Hq He]. destruct (add_dependents_fields ds t st) as (Hm & Hqe & Hee & _).
  split; intros y; rewrite get_status_add_dependents, ?Hqe, ?Hee; auto.
Qed.

Lemma failed_call_tables_sound n st x r :
  set_status_aux n st x FAILED = Some r → tables_sound st → tables_sound (state_of r).
Proof.
  apply failed_call_inv. intros st' x' Hne. by apply step_tables_sound.
Qed.

Lemma set_status_aux_tables_sound n st x s r :
  s ≠ UNKNOWN →
  (s = SUBMITTED → is_Some (od_get x (_queue st)) ∧ get_status st x ≠ RUNNING) →
  tables_sound st →
  set_status_aux n st x s = Some r → tables_sound (state_of r).
Proof.
  intros Hs Hsub Hc. destruct n as [|n]; [done|]. rewrite set_status_aux_S.
  destruct (decide (get_status st x = s)) as [<-|Hne].
  { rewrite set_status_body_same. by intros [= <-]. }
  destruct (decide (s = SUBMITTED ∧ get_status st x = UNKNOWN)) as [[-> Hold]|Hnb].
  - unfold set_status_body. rewrite decide_False, bool_decide_eq_true_2 by done.
    destruct (od_get x (_queue st)) as [task|] eqn:Hq; [|by intros [= <-]].
    destruct (submit_loop _ _ _ _ _) as [fl|] eqn:Hloop; [|done].
    apply submit_loop_spec in Hloop as (ds & rest & _ & Hds & Hcases).
    pose proof (tables_sound_add_dependents ds (Task.id task) st Hc) as Hc'.
    destruct (add_dependents_fields ds (Task.id task) st) as (Hm & Hqe & Hee & _).
    simpl in Hcases.
    destruct Hcases as [[-> ->]|[(d&rest'&->&_&->)|(d&rest'&s&r'&->&_&_&Hrec&->)]].
    + unfold finish. rewrite bool_decide_eq_false_2 by set_solver.
      intros [= <-]. simpl. destruct Hc as [Hq0 He0].
      split; intros y; simp_st; rewrite ?Hqe, ?Hee.
      * case_decide; [subst; by rewrite Hq|apply Hq0].
      * case_decide; [subst|apply He0]. intros Hy. apply He0 in Hy. congruence.
    + by intros [= <-].
    + intros [= <-]. by eapply failed_call_tables_sound.
  - rewrite set_status_body_step by done.
    pose proof (step_tables_sound st x s Hs Hne Hsub Hc) as Hc'.
    destruct (step st x s) as [st'|e st']; [|by intros [= <-]].
    case_bool_decide; [|by intros [= <-]].
    intros Hp. eapply propagate_inv; [|exact Hp|done].
    intros st'' d r'. apply failed_call_tables_sound.
Qed.

Lemma apply_op_tables_sound st o :
  op_ok_at st o → tables_sound st → tables_sound (state_of (apply_op st o)).
Proof.
  intros Hok Hc.
  assert (∀ st x s, s ≠ UNKNOWN → s ≠ SUBMITTED → tables_sound st →
                    tables_sound (state_of (_set_status st x s))) as Hset.
  { intros st' x s ???.
    apply (set_status_aux_tables_sound (fuel_bound st') st' x s);
      [done|done|done|apply set_status_run]. }
  destruct o as [task|x|x s|]; simpl in *.
  - unfold enqueue_task.
    set (st0 := with_queue (od_set (Task.id task) task (_queue st)) st).
    apply (set_status_aux_tables_sound (fuel_bound st0) st0 (Task.id task) SUBMITTED);
      [done| | |apply set_status_run].
    + intros _. simpl. by rewrite od_get_set_eq.
    + destruct Hc as [Hq He]. split; intros y; simp_st; [|apply He].
      intros Hy. destruct (decide (Task.id task = y)) as [<-|Hn].
      * by rewrite od_get_set_eq.
      * rewrite od_get_set_ne by done. by apply Hq.
  - by apply Hset.
  - apply Hset; [| |done]; destruct Hok as [->|[->|[->| ->]]]; done.
  - apply schedule_once_inv; [|done]. intros. by apply Hset.
Qed.

(** C6, as the code has it: in every scheduler reached by submissions (of
    ids that are not RUNNING at that moment), cancellations, executor
    reports and scheduling cycles, every SUBMITTED task is in the queue and
    every task that has an executor is RUNNING.  (The converses fail:
    see [queue_keeps_failed_task].) *)
Theorem queue_and_executors_sound max_cores st :
  reachable_nr max_cores st →
  (∀ x, get_status st x = SUBMITTED → is_Some (od_get x (_queue st))) ∧
  (∀ x, is_Some (_executors st !! x) → get_status st x = RUNNING).
Proof.
  induction 1; [apply tables_sound_init|by apply apply_op_tables_sound].
Qed.

Lemma queue_and_executors_sound_witness :
  let st := state_of (apply_op (state_of (apply_op (init 2) (EnqueueTask (task "a" 1 []))))
                               ScheduleOnce) in
  get_status st "a" = RUNNING.
Proof.
  intros st.
  assert (reachable_nr 2 st) as Hr.
  { apply reachable_nr_step; [apply reachable_nr_step; [apply reachable_nr_init|]|].
    - by vm_compute.
    - exact I. }
  apply (queue_and_executors_sound 2 st Hr). vm_compute. eauto.
Defined.

(** The counterexample to C6: "b" depends on "a"; cancelling "a" fails "b",
    which stays in the queue: the queue holds one task and no task is
    SUBMITTED.  And a task that is told RUNNING by its executor after it
    was cancelled is RUNNING without an executor. *)
Lemma queue_keeps_failed_task :
  (let st := run_ops (init 2) [EnqueueTask (task "a" 1 []);
                               EnqueueTask (task "b" 1 ["a"]); CancelTask "a"] in
   reachable 2 st ∧ is_Some (od_get "b" (_queue st)) ∧ get_status st "b" = FAILED ∧
   length (_queue st) = 1%nat ∧
   ∀ x, x ∈ ["a"; "b"] → get_status st x ≠ SUBMITTED) ∧
  (let st := run_ops (init 2) [EnqueueTask (task "a" 1 []); ScheduleOnce;
                               CancelTask "a"; SetStatus "a" RUNNING] in
   reachable 2 st ∧ get_status st "a" = RUNNING ∧ _executors st !! "a" = None).
Proof.
  split.
  - split; [solve_ops|]. split; [vm_compute; eauto|]. split; [by vm_compute|].
    split; [by vm_compute|]. intros x Hx.
    apply elem_of_cons in Hx as [->|Hx]; [by vm_compute|].
    apply elem_of_cons in Hx as [->|Hx]; [by vm_compute|].
    by apply elem_of_nil in Hx.
  - split; [solve_ops|]. split; by vm_compute.
Qed.

(** ** The core budget *)

(** [task.resources["cores"]] of the task an executor runs. *)
Definition executor_cores (e : Executor) : Z :=
  match ex_task e with
  | Some task => default 0 (Task.resources task !! "cores")
  | None => 0
  end.

(** The cores of the RUNNING tasks: the sum of [resources["cores"]] over
    the executors whose task has the status RUNNING. *)
Definition running_cores (st : TaskScheduler) : Z :=
  map_fold (λ id e acc,
              if decide (get_status st id = RUNNING) then acc + executor_cores e else acc)
           0 (_executors st).

(** C1, evaluated on the code: with [max_cores = 2], a task of two cores is
    started and the scheduler still counts one core as available; with
    [max_cores = 1] and two tasks of two cores each, both are started in one
    cycle and [available_cores] is negative. *)
Theorem available_cores_miscounted :
  (let st := run_ops (init 2) [EnqueueTask (task "a" 2 []); ScheduleOnce] in
   reachable 2 st ∧ get_status st "a" = RUNNING ∧ running_cores st = 2 ∧
   _available_cores st = 1 ∧ _available_cores st ≠ _max_cores st - running_cores st) ∧
  (let st := run_ops (init 1) [EnqueueTask (task "a" 2 []); EnqueueTask (task "b" 2 []);
                               ScheduleOnce] in
   reachable 1 st ∧ get_status st "a" = RUNNING ∧ get_status st "b" = RUNNING ∧
   _available_cores st = -1 ∧ _available_cores st < 0).
Proof.
  split.
  - split; [solve_ops|]. split; [by vm_compute|]. split; [by vm_compute|].
    split; [by vm_compute|]. by vm_compute.
  - split; [solve_ops|]. split; [by vm_compute|]. split; [by vm_compute|].
    split; by vm_compute.
Qed.

(** C3, evaluated on the code: with [max_cores = 2], the submitted task "a"
    of four cores and no dependencies is moved to RUNNING by the first
    [schedule_once]. *)
Theorem oversized_task_started :
  let st := run_ops (init 2) [EnqueueTask (task "a" 4 [])] in
  reachable 2 st ∧ get_status st "a" = SUBMITTED ∧ _available_cores st = 2 ∧
  Task.resources (task "a" 4 []) !! "cores" = Some 4 ∧
  ∃ st', schedule_once st = Ok st' ∧ get_status st' "a" = RUNNING ∧
         is_Some (_executors st' !! "a") ∧ _available_cores st' = 1.
Proof.
  split; [solve_ops|]. split; [by vm_compute|]. split; [by vm_compute|].
  split; [by vm_compute|]. eexists. split; [by vm_compute|].
  split; [by vm_compute|]. split; [|by vm_compute]. vm_compute. eauto.
Qed.

(** ** [LocalBackend.logs] *)

Section logs.
(** The log manager ([FileLogManager], not part of these sources): opening
    a log gives a file or raises. *)
Variable file : Type.
Variable open_stdout open_stderr : string → exn + file.

(** The local variables of a call: a name is bound once it is assigned. *)
Definition read_local (locals : gmap string string) (name : string) : exn + string :=
  match locals !! name with
  | Some v => inr v
  | None => inl (UnboundLocalError name)
  end.

(** [LocalBackend.get_task_id]: [self._tracked[target_name]] *)
Definition get_task_id (tracked : gmap string string) (target_name : string)
  : exn + string :=
  match tracked !! target_name with
  | Some task_id => inr task_id
  | None => inl (KeyError target_name)
  end.

(** [LocalBackend.logs]: [task_id] is assigned in the [if stderr:] branch
    only, and read after it. *)
Definition logs (tracked : gmap string string) (target_name : string) (stderr : bool)
  : exn + file :=
  let locals : gmap string string := ∅ in
  if stderr then
    match get_task_id tracked target_name with
    | inl e => inl e
    | inr v =>
        let locals := <["task_id" := v]> locals in
        match read_local locals "task_id" with
        | inl e => inl e
        | inr task_id => open_stderr task_id
        end
    end
  else
    match read_local locals "task_id" with
    | inl e => inl e
    | inr task_id => open_stdout task_id
    end.

(** C9: for every target, tracked or not, [logs] without [stderr] raises
    the unbound-local error for [task_id]; it never gives the result of
    [open_stdout]. *)
Theorem logs_stdout_unbound tracked target_name :
  logs tracked target_name false = inl (UnboundLocalError "task_id").
Proof. done. Qed.
End logs.

(** * Further properties of the code *)

(** ** The scan of [schedule_once] *)

Lemma has_failed_dep_false st deps :
  has_failed_dep st deps = inr false →
  Forall (λ d, ∃ s, _status_map st !! d = Some s ∧ s ∉ FAILED_STATES) deps.
Proof.
  induction deps as [|d deps IH]; simpl; [by constructor|].
  destruct (_status_map st !! d) as [s|] eqn:Hd; [|done].
  case_bool_decide; [done|]. intros H'. constructor; eauto.
Qed.

Lemma has_failed_dep_true st deps :
  has_failed_dep st deps = inr true →
  ∃ d s, d ∈ deps ∧ _status_map st !! d = Some s ∧ s ∈ FAILED_STATES.
Proof.
  induction deps as [|d deps IH]; simpl; [done|].
  destruct (_status_map st !! d) as [s|] eqn:Hd; [|done].
  case_bool_decide.
  - intros _. exists d, s. split_and!; [left|done|done].
  - intros H'. destruct (IH H') as (d' & s' & ? & ? & ?). exists d', s'.
    split_and!; [by right|done|done].
Qed.

Lemma can_run_true st deps :
  can_run st deps = inr true →
  Forall (λ d, _status_map st !! d = Some COMPLETED) deps.
Proof.
  induction deps as [|d deps IH]; simpl; [by constructor|].
  destruct (_status_map st !! d) as [s|] eqn:Hd; [|done].
  case_decide; [|done]. subst. intros H'. constructor; eauto.
Qed.

(** A task the scan may start: every dependency is COMPLETED and the task
    says how many cores it takes. *)
Definition ready (st : TaskScheduler) (task : Task.t) : Prop :=
  Forall (λ d, _status_map st !! d = Some COMPLETED) (Task.dependencies task) ∧
  is_Some (Task.resources task !! "cores").

(** A task the scan sets aside: one of its dependencies is FAILED or
    CANCELLED. *)
Definition doomed (st : TaskScheduler) (task : Task.t) : Prop :=
  ∃ d s, d ∈ Task.dependencies task ∧ _status_map st !! d = Some s ∧
         s ∈ FAILED_STATES.

Lemma scan_spec st tasks a sch fl sch' fl' :
  scan st tasks a sch fl = inr (sch', fl') →
  ∃ new newf, sch' = (sch ++ new)%list ∧ fl' = (fl ++ newf)%list ∧
              sublist new tasks ∧ sublist newf tasks ∧
              Forall (ready st) new ∧ Forall (doomed st) newf.
Proof.
  revert a sch fl. induction tasks as [|task tasks IH]; intros a sch fl; simpl.
  - intros [= <- <-]. exists [], []. rewrite !app_nil_r.
    split_and!; try done; constructor.
  - case_decide.
    { intros [= <- <-]. exists [], []. rewrite !app_nil_r.
      split_and!; try done; try constructor; apply sublist_nil_l. }
    destruct (has_failed_dep st (Task.dependencies task)) as [e|[|]] eqn:Hf; [done| |].
    { intros Hs. apply IH in Hs as (new & newf & -> & -> & S1 & S2 & F1 & F2).
      exists new, (task :: newf). rewrite <- app_assoc. simpl.
      split_and!; try done.
      - by apply sublist_cons.
      - by apply sublist_skip.
      - constructor; [|done]. by apply has_failed_dep_true. }
    destruct (can_run st (Task.dependencies task)) as [e|[|]] eqn:Hc; [done| |].
    + destruct (Task.resources task !! "cores") as [cores|] eqn:Hcores; [|done].
      intros Hs. apply IH in Hs as (new & newf & -> & -> & S1 & S2 & F1 & F2).
      exists (task :: new), newf. rewrite <- app_assoc. simpl.
      split_and!; try done.
      * by apply sublist_skip.
      * by apply sublist_cons.
      * constructor; [|done]. split; [by apply can_run_true|]. by rewrite Hcores.
    + intros Hs. apply IH in Hs as (new & newf & -> & -> & S1 & S2 & F1 & F2).
      exists new, newf. split_and!; try done; by apply sublist_cons.
Qed.

(** X1: the scan of a scheduling cycle keeps the order of the queue in both
    of its lists; it marks for starting only tasks whose dependencies are
    all COMPLETED and that have a [cores] entry, and sets aside as failed
    only tasks with a dependency that is FAILED or CANCELLED. *)
Theorem scan_sound st tasks available_cores scheduled failed :
  scan st tasks available_cores [] [] = inr (scheduled, failed) →
  sublist scheduled tasks ∧ sublist failed tasks ∧
  Forall (ready st) scheduled ∧ Forall (doomed st) failed.
Proof.
  intros Hs. apply scan_spec in Hs as (new & newf & -> & -> & ? & ? & ? & ?). done.
Qed.

Lemma scan_sound_witness :
  let st := run_ops (init 2) [EnqueueTask (task "a" 1 []); EnqueueTask (task "b" 1 ["a"]);
                              EnqueueTask (task "c" 1 [])] in
  sublist [task "a" 1 []; task "c" 1 []] (snd <$> _queue st) ∧
  Forall (ready st) [task "a" 1 []; task "c" 1 []].
Proof.
  intros st.
  assert (scan st (snd <$> _queue st) (_available_cores st) [] [] =
          inr ([task "a" 1 []; task "c" 1 []], [])) as Hs by (by vm_compute).
  destruct (scan_sound _ _ _ _ _ Hs) as (H1 & _ & H2 & _). exact (conj H1 H2).
Defined.

(** ** What a scheduling cycle starts *)

Lemma set_status_other st x s y :
  s ∉ FAILED_STATES → ¬ (s = SUBMITTED ∧ get_status st x = UNKNOWN) → x ≠ y →
  get_status (state_of (_set_status st x s)) y = get_status st y.
Proof.
  intros Hs Hnb Hxy. pose proof (set_status_run st x s) as Hrun.
  rewrite fuel_bound_S, set_status_aux_S in Hrun.
  destruct (decide (get_status st x = s)) as [<-|Hne].
  { rewrite set_status_body_same in Hrun. by injection Hrun as <-. }
  rewrite set_status_body_step in Hrun by done.
  pose proof (step_status_other st x s y Hxy) as Hy.
  destruct (step st x s) as [st1|e st1].
  - rewrite bool_decide_eq_false_2 in Hrun by done. by injection Hrun as <-.
  - by injection Hrun as <-.
Qed.

Lemma start_all_status scheduled st y :
  get_status (state_of (start_all scheduled st)) y ≠ get_status st y →
  ∃ task, task ∈ scheduled ∧ Task.id task = y.
Proof.
  revert st. induction scheduled as [|task l IH]; intros st; simpl; [done|].
  destruct (decide (Task.id task = y)) as [Heq|Hne].
  { intros _. exists task. split; [left|done]. }
  pose proof (set_status_other st (Task.id task) RUNNING y) as Ho.
  rewrite <- Ho; [|by_compute|naive_solver|done].
  destruct (_set_status st (Task.id task) RUNNING) as [st'|e st']; simpl; [|done].
  intros H'. destruct (IH _ H') as (t & ? & ?). exists t. split; [by right|done].
Qed.

(** X2: whatever a scheduling cycle turns RUNNING was queued, with every
    dependency COMPLETED, when the cycle began; a cycle changes the status
    of no other task. *)
Theorem schedule_once_starts_ready st x :
  get_status (state_of (schedule_once st)) x ≠ get_status st x →
  ∃ task, task ∈ (snd <$> _queue st) ∧ Task.id task = x ∧
          Forall (λ d, get_status st d = COMPLETED) (Task.dependencies task).
Proof.
  unfold schedule_once.
  destruct (scan st (snd <$> _queue st) (_available_cores st) [] [])
    as [e|[scheduled failed]] eqn:Hs; [done|].
  intros Hx. apply start_all_status in Hx as (task & Hin & Hid).
  apply scan_spec in Hs as (new & newf & -> & -> & Hsub & _ & Hready & _).
  exists task. split_and!; [|done|].
  - eapply elem_of_sublist; done.
  - eapply Forall_forall in Hready as [Hdeps _]; [|done].
    eapply Forall_impl; [exact Hdeps|]. intros d Hd. unfold get_status. by rewrite Hd.
Qed.

Lemma schedule_once_starts_ready_witness :
  let st := run_ops (init 2) [EnqueueTask (task "a" 1 []); EnqueueTask (task "b" 1 ["a"])] in
  ∃ task, task ∈ (snd <$> _queue st) ∧ Task.id task = "a" ∧
          Forall (λ d, get_status st d = COMPLETED) (Task.dependencies task).
Proof.
  intros st. apply (schedule_once_starts_ready st "a"). by vm_compute.
Defined.

(** X3: a scheduling cycle on a scheduler without available cores, or with
    an empty queue, returns and changes nothing. *)
Theorem schedule_once_idle st :
  _available_cores st = 0 ∨ _queue st = [] → schedule_once st = Ok st.
Proof.
  intros [H0| Hq]; unfold schedule_once.
  - rewrite H0. by destruct (snd <$> _queue st).
  - by rewrite Hq.
Qed.

Lemma schedule_once_idle_witness :
  let st := run_ops (init 1) [EnqueueTask (task "a" 1 []); EnqueueTask (task "b" 1 []);
                              ScheduleOnce] in
  get_status st "b" = SUBMITTED ∧ schedule_once st = Ok st.
Proof.
  intros st. split; [by vm_compute|]. apply schedule_once_idle. left. by vm_compute.
Defined.

Lemma has_failed_dep_unknown st ds d rest :
  Forall (λ d', ∃ s, _status_map st !! d' = Some s ∧ s ∉ FAILED_STATES) ds →
  _status_map st !! d = None →
  has_failed_dep st (ds ++ d :: rest) = inl (KeyError d).
Proof.
  intros Hds Hd. induction Hds as [|d' ds (s & Hs & Hnf) _ IH]; simpl.
  - by rewrite Hd.
  - by rewrite Hs, bool_decide_eq_false_2.
Qed.

(** X4: when the first task of the queue has a dependency without a status
    (as a submission that raised [BackendError] leaves it) and no failed
    dependency before it, a scheduling cycle with cores available raises
    [KeyError] for that dependency and starts nothing. *)
Theorem schedule_once_unknown_dependency st k task q ds d rest :
  _queue st = (k, task) :: q → _available_cores st ≠ 0 →
  Task.dependencies task = (ds ++ d :: rest)%list →
  Forall (λ d', ∃ s, _status_map st !! d' = Some s ∧ s ∉ FAILED_STATES) ds →
  _status_map st !! d = None →
  schedule_once st = Raise (KeyError d) st.
Proof.
  intros Hq Ha Hdeps Hds Hd. unfold schedule_once. rewrite Hq. simpl.
  rewrite decide_False by done. by rewrite Hdeps, has_failed_dep_unknown.
Qed.

Lemma schedule_once_unknown_dependency_witness :
  let st := state_of (enqueue_task (init 2) (task "a" 1 ["x"])) in
  schedule_once st = Raise (KeyError "x") st.
Proof.
  intros st.
  apply (schedule_once_unknown_dependency st "a" (task "a" 1 ["x"]) [] [] "x" []).
  - by vm_compute.
  - by vm_compute.
  - reflexivity.
  - apply Forall_nil_2.
  - by vm_compute.
Defined.

(** ** The life of one task *)

(** A call that changes the status, is not a first submission and does not
    ask for a failed status is just its step. *)
Lemma set_status_is_step st x s :
  get_status st x ≠ s → ¬ (s = SUBMITTED ∧ get_status st x = UNKNOWN) →
  s ∉ FAILED_STATES → _set_status st x s = step st x s.
Proof.
  intros Hne Hnb Hs. pose proof (set_status_run st x s) as Hrun.
  rewrite fuel_bound_S, set_status_aux_S, set_status_body_step in Hrun by done.
  destruct (step st x s) as [st1|e st1].
  - rewrite bool_decide_eq_false_2 in Hrun by done. by injection Hrun as <-.
  - by injection Hrun as <-.
Qed.

(** A call for a failed status on a task without dependents is its step. *)
Lemma set_status_is_step_failed st x s :
  get_status st x ≠ s → s ∈ FAILED_STATES → dependents_of st x = [] →
  _set_status st x s = step st x s.
Proof.
  intros Hne Hs Hd. pose proof (set_status_run st x s) as Hrun.
  assert (s ≠ SUBMITTED) by (intros ->; revert Hs; by_compute_neg).
  rewrite fuel_bound_S, set_status_aux_S, set_status_body_step in Hrun by naive_solver.
  destruct (step st x s) as [st1|e st1] eqn:Hstep.
  - rewrite bool_decide_eq_true_2 in Hrun by done.
    apply step_Ok_status in Hstep as [_ Hdep]. unfold dependents_of in *.
    rewrite Hdep, Hd in Hrun. simpl in Hrun. by injection Hrun as <-.
  - by injection Hrun as <-.
Qed.

(** X5: a SUBMITTED task of the queue that is started and then reported
    COMPLETED: both calls return; the task leaves the queue and gets an
    executor, which is dropped again at the end; the one core taken at the
    start is handed back; no other status changes. *)
Theorem start_then_complete st x task :
  get_status st x = SUBMITTED → od_get x (_queue st) = Some task →
  ∃ st1 st2,
    _set_status st x RUNNING = Ok st1 ∧ _set_status st1 x COMPLETED = Ok st2 ∧
    get_status st1 x = RUNNING ∧
    _executors st1 !! x = Some (Executor_execute task Executor_new) ∧
    od_get x (_queue st1) = None ∧
    _available_cores st1 = _available_cores st - 1 ∧
    get_status st2 x = COMPLETED ∧ _executors st2 !! x = None ∧
    _available_cores st2 = _available_cores st ∧
    ∀ y, y ≠ x → get_status st2 y = get_status st y.
Proof.
  intros Hx Hq.
  set (st1 := store_status x RUNNING
     (with_queue (od_del x (_queue st))
        (with_executors (<[x := Executor_execute task Executor_new]>
                           (<[x := Executor_new]> (_executors st)))
           (with_available_cores (_available_cores st - 1) st)))).
  set (st2 := store_status x COMPLETED
     (with_executors (delete x (_executors st1))
        (with_available_cores (_available_cores st1 + 1) st1))).
  assert (get_status st1 x = RUNNING) as Hx1.
  { unfold st1. simp_st. by rewrite decide_True. }
  assert (_executors st1 !! x = Some (Executor_execute task Executor_new)) as He1.
  { unfold st1. simpl. by rewrite lookup_insert_eq. }
  exists st1, st2. split_and!.
  - rewrite set_status_is_step; [|rewrite Hx; done|rewrite Hx; naive_solver|by_compute_neg].
    unfold st1. crunch_step; naive_solver.
  - rewrite set_status_is_step; [|rewrite Hx1; done|rewrite Hx1; naive_solver|by_compute_neg].
    unfold st2. crunch_step; naive_solver.
  - done.
  - done.
  - unfold st1. simpl. apply od_get_del_eq.
  - done.
  - unfold st2. simp_st. by rewrite decide_True.
  - unfold st2. simpl. apply lookup_delete_eq.
  - unfold st2, st1. simpl. lia.
  - intros y Hy. unfold st2, st1. simp_st. by rewrite !decide_False by done.
Qed.

Lemma start_then_complete_witness :
  let st := run_ops (init 2) [EnqueueTask (task "a" 1 [])] in
  ∃ st1 st2,
    _set_status st "a" RUNNING = Ok st1 ∧ _set_status st1 "a" COMPLETED = Ok st2 ∧
    get_status st2 "a" = COMPLETED ∧ _available_cores st2 = _available_cores st.
Proof.
  intros st.
  destruct (start_then_complete st "a" (task "a" 1 []) eq_refl eq_refl)
    as (st1 & st2 & H1 & H2 & _ & _ & _ & _ & H3 & _ & H4 & _).
  exists st1, st2. exact (conj H1 (conj H2 (conj H3 H4))).
Defined.

(** X6: cancelling a RUNNING task that has an executor and no dependents
    returns, stores CANCELLED and drops the executor, but hands no core
    back: [available_cores] stays as it was, and the CANCELLED report the
    executor sends afterwards changes nothing. *)
Theorem cancel_running_keeps_core st x e :
  get_status st x = RUNNING → _executors st !! x = Some e →
  dependents_of st x = [] →
  ∃ st', cancel_task st x = Ok st' ∧ get_status st' x = CANCELLED ∧
         _executors st' !! x = None ∧
         _available_cores st' = _available_cores st ∧
         set_status st' x CANCELLED = Ok st'.
Proof.
  intros Hx He Hd.
  set (st' := store_status x CANCELLED (with_executors (delete x (_executors st)) st)).
  assert (get_status st' x = CANCELLED) as Hx'.
  { unfold st'. simp_st. by rewrite decide_True. }
  exists st'. split_and!; try done.
  - unfold cancel_task. rewrite set_status_is_step_failed; [|rewrite Hx; done|by_compute|done].
    unfold st'. crunch_step; naive_solver.
  - unfold st'. simpl. apply lookup_delete_eq.
  - unfold set_status. pose proof (set_status_same st' x) as Hsame.
    by rewrite Hx' in Hsame.
Qed.

Lemma cancel_running_keeps_core_witness :
  let st := run_ops (init 2) [EnqueueTask (task "a" 1 []); ScheduleOnce] in
  _available_cores st = 1 ∧
  ∃ st', cancel_task st "a" = Ok st' ∧ get_status st' "a" = CANCELLED ∧
         _available_cores st' = 1.
Proof.
  intros st. split; [reflexivity|].
  destruct (cancel_running_keeps_core st "a" (Executor_execute (task "a" 1 []) Executor_new)
              eq_refl eq_refl eq_refl) as (st' & H1 & H2 & _ & H3 & _).
  exists st'. exact (conj H1 (conj H2 H3)).
Defined.

(** X7: a RUNNING report for a task that is neither SUBMITTED nor RUNNING
    and has no executor (the first report of an executor whose task was
    cancelled in between) is stored as it comes; from then on every report
    of a finished status raises [KeyError] and the task stays RUNNING. *)
Theorem late_running_report_sticks st x :
  get_status st x ≠ SUBMITTED → get_status st x ≠ RUNNING →
  _executors st !! x = None →
  ∃ st1, set_status st x RUNNING = Ok st1 ∧ get_status st1 x = RUNNING ∧
         _executors st1 !! x = None ∧
         ∀ s, s ∈ FINISHED_STATES →
              ∃ st2, set_status st1 x s = Raise (KeyError x) st2 ∧
                     get_status st2 x = RUNNING.
Proof.
  intros Hs Hr He. set (st1 := store_status x RUNNING st).
  assert (get_status st1 x = RUNNING) as Hx1.
  { unfold st1. simp_st. by rewrite decide_True. }
  exists st1. split_and!; try done.
  - unfold set_status. rewrite set_status_is_step; [|done|naive_solver|by_compute_neg].
    unfold st1. crunch_step; naive_solver.
  - intros s Hfin.
    assert (get_status st1 x ≠ s) as Hne.
    { rewrite Hx1. intros <-. revert Hfin. by_compute_neg. }
    assert (∃ st2, step st1 x s = Raise (KeyError x) st2 ∧ get_status st2 x = RUNNING)
      as (st2 & Hstep & Hx2).
    { assert (_executors st1 !! x = None) as He1 by done.
      clearbody st1. crunch_step; try naive_solver; eexists; (split; [done|]); by simp_st. }
    exists st2. split; [|done]. unfold set_status.
    destruct (decide (s ∈ FAILED_STATES)) as [Hf|Hf].
    + pose proof (set_status_run st1 x s) as Hrun.
      rewrite fuel_bound_S, set_status_aux_S, set_status_body_step in Hrun;
        [|done|rewrite Hx1; naive_solver].
      rewrite Hstep in Hrun. by injection Hrun as <-.
    + rewrite set_status_is_step; [done|done|rewrite Hx1; naive_solver|done].
Qed.

Lemma late_running_report_sticks_witness :
  let st := run_ops (init 2) [EnqueueTask (task "a" 1 []); ScheduleOnce; CancelTask "a"] in
  get_status st "a" = CANCELLED ∧
  ∃ st1, set_status st "a" RUNNING = Ok st1 ∧ get_status st1 "a" = RUNNING ∧
         ∃ st2, set_status st1 "a" CANCELLED = Raise (KeyError "a") st2 ∧
                get_status st2 "a" = RUNNING.
Proof.
  intros st. split; [reflexivity|].
  assert (get_status st "a" ≠ SUBMITTED) as H1 by by_compute.
  assert (get_status st "a" ≠ RUNNING) as H2 by by_compute.
  destruct (late_running_report_sticks st "a" H1 H2 eq_refl) as (st1 & Hr & Hx & _ & Hall).
  exists st1. split; [exact Hr|]. split; [exact Hx|].
  apply Hall. by_compute.
Defined.

(** ** Accepted submissions *)

Lemma od_get_None_set {A} k (v : A) q :
  od_get k q = None → od_set k v q = (q ++ [(k, v)])%list.
Proof.
  induction q as [|[k' v'] q IH]; simpl; [done|].
  case_decide; [done|]. intros Hq. by rewrite IH.
Qed.

Lemma enqueue_task_accepted_state st task :
  get_status st (Task.id task) = UNKNOWN →
  Forall (λ d, ∃ s, _status_map st !! d = Some s ∧ s ∉ FAILED_STATES)
         (Task.dependencies task) →
  enqueue_task st task =
  Ok (store_status (Task.id task) SUBMITTED
        (add_dependents (Task.dependencies task) (Task.id task)
           (with_queue (od_set (Task.id task) task (_queue st)) st))).
Proof.
  intros Hu Hds. unfold enqueue_task.
  set (x := Task.id task). set (st0 := with_queue (od_set x task (_queue st)) st).
  pose proof (set_status_run st0 x SUBMITTED) as Hrun.
  rewrite fuel_bound_S, set_status_aux_S in Hrun. unfold set_status_body in Hrun.
  assert (get_status st0 x = UNKNOWN) as Hu0 by done.
  rewrite decide_False, bool_decide_eq_true_2 in Hrun by (rewrite ?Hu0; done).
  assert (od_get x (_queue st0) = Some task) as Hq0 by apply od_get_set_eq.
  rewrite Hq0 in Hrun.
  rewrite <- (app_nil_r (Task.dependencies task)) in Hrun at 1.
  rewrite submit_loop_prefix in Hrun by done. simpl in Hrun.
  unfold finish in Hrun. rewrite bool_decide_eq_false_2 in Hrun by by_compute_neg.
  by injection Hrun as <-.
Qed.

(** X8: submitting a task whose id has no status yet, and whose
    dependencies all have a status that is neither FAILED nor CANCELLED,
    returns; the task is SUBMITTED and in the queue (at its end when the id
    was not queued), it is recorded as a dependent of each of its
    dependencies, and no other status changes. *)
Theorem enqueue_task_accepted st task :
  get_status st (Task.id task) = UNKNOWN →
  Forall (λ d, ∃ s, _status_map st !! d = Some s ∧ s ∉ FAILED_STATES)
         (Task.dependencies task) →
  ∃ st', enqueue_task st task = Ok st' ∧
         get_status st' (Task.id task) = SUBMITTED ∧
         od_get (Task.id task) (_queue st') = Some task ∧
         (od_get (Task.id task) (_queue st) = None →
          _queue st' = (_queue st ++ [(Task.id task, task)])%list) ∧
         (∀ d, d ∈ Task.dependencies task → Task.id task ∈ dependents_of st' d) ∧
         (∀ y, y ≠ Task.id task → get_status st' y = get_status st y) ∧
         _available_cores st' = _available_cores st.
Proof.
  intros Hu Hds. unfold enqueue_task.
  set (x := Task.id task). set (st0 := with_queue (od_set x task (_queue st)) st).
  set (st' := store_status x SUBMITTED (add_dependents (Task.dependencies task) x st0)).
  destruct (add_dependents_fields (Task.dependencies task) x st0) as (Hm & Hq & _ & Hc & _).
  exists st'. split_and!.
  - by apply enqueue_task_accepted_state.
  - unfold st'. simp_st. by rewrite decide_True.
  - unfold st'. simpl. rewrite Hq. apply od_get_set_eq.
  - intros Hnone. unfold st'. simpl. rewrite Hq. simpl. by apply od_get_None_set.
  - intros d Hd. unfold st'. rewrite dependents_of_store.
    apply elem_of_dependents_adds. by right.
  - intros y Hy. unfold st'. simp_st. by rewrite decide_False.
  - unfold st'. simpl. by rewrite Hc.
Qed.

Lemma enqueue_task_accepted_witness :
  let st := run_ops (init 2) [EnqueueTask (task "a" 1 [])] in
  ∃ st', enqueue_task st (task "b" 1 ["a"]) = Ok st' ∧
         get_status st' "b" = SUBMITTED ∧ "b" ∈ dependents_of st' "a".
Proof.
  intros st.
  assert (Forall (λ d, ∃ s, _status_map st !! d = Some s ∧ s ∉ FAILED_STATES)
                 (Task.dependencies (task "b" 1 ["a"]))) as Hds.
  { apply Forall_cons_2; [|apply Forall_nil_2]. exists SUBMITTED.
    split; [reflexivity|by_compute]. }
  destruct (enqueue_task_accepted st (task "b" 1 ["a"]) eq_refl Hds)
    as (st' & H1 & H2 & _ & _ & H3 & _).
  exists st'. split; [exact H1|]. split; [exact H2|]. apply H3. by_compute.
Defined.

Lemma failed_call_no_dependents n st x :
  get_status st x ≠ FAILED → dependents_of st x = [] →
  set_status_aux (S n) st x FAILED = Some (step st x FAILED).
Proof.
  intros Hne Hd. rewrite set_status_aux_S, set_status_body_FAILED, decide_False by done.
  destruct (step st x FAILED) as [st1|e st1] eqn:Hstep; [|done].
  apply step_Ok_status in Hstep as [_ Hdep]. unfold dependents_of in *.
  by rewrite Hdep, Hd.
Qed.

(** X9: in a reachable scheduler, submitting a task whose id has no status
    yet and whose first dependency that is not in order (in the iteration
    order) is FAILED or CANCELLED returns without an error; the task is
    FAILED at once and stays in the queue. *)
Theorem enqueue_task_failed_dependency max_cores st task ds d s rest :
  reachable max_cores st →
  get_status st (Task.id task) = UNKNOWN →
  Task.dependencies task = (ds ++ d :: rest)%list →
  Forall (λ d', ∃ s', _status_map st !! d' = Some s' ∧ s' ∉ FAILED_STATES) ds →
  _status_map st !! d = Some s → s ∈ FAILED_STATES →
  ∃ st', enqueue_task st task = Ok st' ∧
         get_status st' (Task.id task) = FAILED ∧
         od_get (Task.id task) (_queue st') = Some task ∧
         ∀ y, y ≠ Task.id task → get_status st' y = get_status st y.
Proof.
  intros Hr Hu Hdeps Hds Hd Hs. apply reachable_consistent in Hr as (Hk & Hdk & Hqk & _).
  apply (unknown_not_stored st) in Hu as Hnone; [|done].
  unfold enqueue_task.
  set (x := Task.id task) in *. set (st0 := with_queue (od_set x task (_queue st)) st).
  pose (st1 := add_dependents ds x st0).
  destruct (add_dependents_fields ds x st0) as (Hm & Hq & _).
  assert (get_status st1 x = UNKNOWN) as Hu1.
  { unfold st1. by rewrite get_status_add_dependents. }
  assert (dependents_of st1 x = []) as Hnil.
  { destruct (dependents_of st1 x) as [|t l] eqn:Hl; [done|].
    assert (t ∈ dependents_of st1 x) as Ht by (rewrite Hl; left).
    unfold st1 in Ht. apply elem_of_dependents_adds in Ht as [Ht|[Ht _]].
    - apply Hdk in Ht as [s' Hs']. congruence.
    - eapply Forall_forall in Hds as (s' & Hs' & _); [|done]. congruence. }
  set (st' := store_status x FAILED (with_available_cores (_available_cores st1 + 1) st1)).
  assert (step st1 x FAILED = Ok st') as Hstep.
  { unfold st'. crunch_step; congruence. }
  exists st'. split_and!.
  - pose proof (set_status_run st0 x SUBMITTED) as Hrun.
    rewrite fuel_bound_S, set_status_aux_S in Hrun. unfold set_status_body in Hrun.
    assert (get_status st0 x = UNKNOWN) as Hu0 by done.
    rewrite decide_False, bool_decide_eq_true_2 in Hrun by (rewrite ?Hu0; done).
    assert (od_get x (_queue st0) = Some task) as Hq0 by apply od_get_set_eq.
    rewrite Hq0, Hdeps, submit_loop_prefix in Hrun by done.
    change (add_dependents ds (Task.id task) st0) with st1 in Hrun.
    assert (_status_map st1 !! d = Some s) as Hd1 by (unfold st1; by rewrite Hm).
    simpl in Hrun. rewrite Hd1, bool_decide_eq_true_2 in Hrun by done.
    replace (length (all_dependents st0) + 3)%nat
      with (S (length (all_dependents st0) + 2)) in Hrun by lia.
    rewrite failed_call_no_dependents, Hstep in Hrun by (rewrite ?Hu1; done).
    simpl in Hrun. by injection Hrun as <-.
  - unfold st'. simp_st. by rewrite decide_True.
  - unfold st', st1. simpl. rewrite Hq. apply od_get_set_eq.
  - intros y Hy. unfold st', st1. simp_st. by rewrite decide_False.
Qed.

Lemma enqueue_task_failed_dependency_witness :
  let st := run_ops (init 2) [EnqueueTask (task "f" 1 []); CancelTask "f"] in
  ∃ st', enqueue_task st (task "b" 1 ["f"; "x"]) = Ok st' ∧
         get_status st' "b" = FAILED ∧
         od_get "b" (_queue st') = Some (task "b" 1 ["f"; "x"]).
Proof.
  intros st.
  assert (reachable 2 st) as Hr by solve_ops.
  assert (CANCELLED ∈ FAILED_STATES) as Hs by by_compute.
  destruct (enqueue_task_failed_dependency 2 st (task "b" 1 ["f"; "x"]) [] "f" CANCELLED ["x"]
              Hr eq_refl eq_refl (Forall_nil_2 _) eq_refl Hs) as (st' & H1 & H2 & H3 & _).
  exists st'. exact (conj H1 (conj H2 H3)).
Defined.

(** ** The recursion budget *)

Section budget.
Variables rec rec' : TaskScheduler → string → option (result TaskScheduler).
Hypothesis rec_le : ∀ st d r, rec st d = Some r → rec' st d = Some r.

Lemma propagate_mono ds st r :
  propagate rec ds st = Some r → propagate rec' ds st = Some r.
Proof using rec_le.
  revert st. induction ds as [|d ds IH]; intros st; simpl; [done|].
  destruct (rec st d) as [[st1|e st1]|] eqn:Hd; [| |done]; rewrite (rec_le _ _ _ Hd).
  - apply IH.
  - done.
Qed.

Lemma submit_loop_mono x task deps st fl :
  submit_loop rec x task deps st = Some fl → submit_loop rec' x task deps st = Some fl.
Proof using rec_le.
  revert st. induction deps as [|d deps IH]; intros st; simpl; [done|].
  destruct (_status_map st !! d); [|done]. case_bool_decide; [|apply IH].
  destruct (rec st x) as [r|] eqn:Hr; [|done]. by rewrite (rec_le _ _ _ Hr).
Qed.

Lemma set_status_body_mono st x s r :
  set_status_body rec st x s = Some r → set_status_body rec' st x s = Some r.
Proof using rec_le.
  unfold set_status_body, finish. case_decide; [done|]. case_bool_decide.
  - destruct (od_get x (_queue st)); [|done].
    destruct (submit_loop rec _ _ _ _) as [fl|] eqn:Hl; [|done].
    rewrite (submit_loop_mono _ _ _ _ _ Hl). destruct fl; [done|].
    case_bool_decide; [apply propagate_mono|done].
  - destruct (transition _ _ _ _); [|done].
    case_bool_decide; [apply propagate_mono|done].
Qed.
End budget.

Lemma set_status_aux_mono n m st x s r :
  (n ≤ m)%nat → set_status_aux n st x s = Some r → set_status_aux m st x s = Some r.
Proof.
  revert m st x s r. induction n as [|n IH]; intros m st x s r Hle; [done|].
  destruct m as [|m]; [lia|]. rewrite !set_status_aux_S.
  apply set_status_body_mono. intros st' d r'. apply IH. lia.
Qed.

(** X10: [_set_status] ends on every scheduler, also when the recorded
    dependents form a cycle: the recursion goes on only from a task that is
    not FAILED and marks it FAILED first.  A budget of [fuel_bound] levels
    is enough, and a larger budget gives the same result. *)
Theorem set_status_terminates st x s :
  ∃ r, _set_status st x s = r ∧
       ∀ n, (fuel_bound st ≤ n)%nat → set_status_aux n st x s = Some r.
Proof.
  exists (_set_status st x s). split; [done|]. intros n Hn.
  eapply set_status_aux_mono; [exact Hn|apply set_status_run].
Qed.

(** A scheduler whose dependents form a cycle, as no sequence of operations
    builds it: the call still ends and fails both tasks. *)
Lemma set_status_terminates_on_cycle :
  let st := with_dependents {[ "a" := ["b"]; "b" := ["a"] ]} (init 2) in
  ∃ st', _set_status st "a" FAILED = Ok st' ∧
         get_status st' "a" = FAILED ∧ get_status st' "b" = FAILED.
Proof. eexists. split; [by vm_compute|]. split; by vm_compute. Qed.

(** ** The shape of the reachable schedulers *)

(** X11: in every reachable scheduler no id is stored with the status
    UNKNOWN, only ids that have a status have dependents recorded, every
    queued task is filed under its own id, and the recorded dependents have
    no cycle (they go up along a rank); in particular no task is its own
    dependent. *)
Theorem reachable_well_formed max_cores st :
  reachable max_cores st →
  (∀ x, _status_map st !! x ≠ Some UNKNOWN) ∧
  (∀ d t, t ∈ dependents_of st d → is_Some (_status_map st !! d)) ∧
  (∀ k task, od_get k (_queue st) = Some task → Task.id task = k) ∧
  (∃ rank : string → nat, ∀ d t, t ∈ dependents_of st d → (rank d < rank t)%nat) ∧
  (∀ t, t ∉ dependents_of st t).
Proof.
  intros Hr. apply reachable_consistent in Hr as (Hk & Hd & Hq & [rank Hrk]).
  split_and!; try done.
  - by exists rank.
  - intros t Ht. apply Hrk in Ht. lia.
Qed.

Lemma reachable_well_formed_witness :
  let st := run_ops (init 2) [EnqueueTask (task "a" 1 []); EnqueueTask (task "b" 1 ["a"])] in
  "b" ∈ dependents_of st "a" ∧ is_Some (_status_map st !! "a") ∧
  "a" ∉ dependents_of st "a".
Proof.
  intros st.
  assert (reachable 2 st) as Hr by solve_ops.
  destruct (reachable_well_formed 2 st Hr) as (_ & Hd & _ & _ & Hself).
  assert ("b" ∈ dependents_of st "a") as Hb by by_compute.
  exact (conj Hb (conj (Hd "a" "b" Hb) (Hself "a"))).
Defined.

(** X12: a report of RUNNING or COMPLETED for a task, or a repeated
    submission of a known id, changes the status of no other task and
    records no dependents. *)
Theorem report_is_local st x s y :
  s ∉ FAILED_STATES → ¬ (s = SUBMITTED ∧ get_status st x = UNKNOWN) → x ≠ y →
  get_status (state_of (_set_status st x s)) y = get_status st y ∧
  _dependents (state_of (_set_status st x s)) = _dependents st.
Proof.
  intros Hs Hnb Hxy. split; [by apply set_status_other|].
  destruct (decide (get_status st x = s)) as [<-|Hne].
  { by rewrite set_status_same. }
  rewrite set_status_is_step by done. apply step_dependents.
Qed.

Lemma report_is_local_witness :
  let st := run_ops (init 2) [EnqueueTask (task "a" 1 []); EnqueueTask (task "b" 1 ["a"]);
                              ScheduleOnce] in
  get_status st "a" = RUNNING ∧
  get_status (state_of (_set_status st "a" COMPLETED)) "b" = SUBMITTED.
Proof.
  intros st. split; [reflexivity|].
  assert (COMPLETED ∉ FAILED_STATES) as H1 by by_compute.
  assert (¬ (COMPLETED = SUBMITTED ∧ get_status st "a" = UNKNOWN)) as H2 by (by intros [? _]).
  assert ("a" ≠ "b") as H3 by done.
  exact (proj1 (report_is_local st "a" COMPLETED "b" H1 H2 H3)).
Defined.

(** * The executor, the server's handler, the client and the backend facade *)

(** ** [Executor.terminate_gracefully] *)

(** What the executor does to the child process. *)
Inductive process_action := Terminate | Sleep | Kill.

#[global] Instance process_action_eq_dec : EqDecision process_action.
Proof. solve_decision. Defined.

(** The [for time_spent in range(self._kill_timeout)] loop: [poll i] is
    what the [i]-th call of [process.poll()] returns ([None] while the
    child is alive).  The result is the sleeps of the loop and the final
    value of [timed_out]. *)
Fixpoint wait_for_exit (poll : nat → option Z) (i rounds : nat)
  : list process_action * bool :=
  match rounds with
  | O => ([], true)
  | S rounds' =>
      match poll i with
      | Some _ => ([], false)
      | None =>
          let '(actions, timed_out) := wait_for_exit poll (S i) rounds' in
          (Sleep :: actions, timed_out)
      end
  end.

Definition terminate_gracefully (kill_timeout : Z) (poll : nat → option Z)
  : list process_action :=
  let '(sleeps, timed_out) := wait_for_exit poll 0 (Z.to_nat kill_timeout) in
  (Terminate :: sleeps ++ (if timed_out then [Kill] else []))%list.



Lemma terminate_gracefully_examples :
  terminate_gracefully 10 (λ i, if decide (i < 2)%nat then None else Some 0) =
    [Terminate; Sleep; Sleep] ∧
  terminate_gracefully 3 (λ _, None) = [Terminate; Sleep; Sleep; Sleep; Kill] ∧
  terminate_gracefully 0 (λ _, Some 0) = [Terminate; Kill].
Proof. done. Qed.

(** ** The request and reply messages *)

(** [status.name] *)
Definition LocalStatus_name (s : LocalStatus) : string :=
  match s with
  | UNKNOWN => "UNKNOWN" | SUBMITTED => "SUBMITTED" | RUNNING => "RUNNING"
  | FAILED => "FAILED" | COMPLETED => "COMPLETED" | CANCELLED => "CANCELLED"
  end.


(** [Task.__init__]: [env or {}], [resources or {}], and the dependencies
    made a set. *)
Definition Task_init (id script : string) (working_dir : option string)
           (env : option (gmap string string)) (resources : option (gmap string Z))
           (dependencies : option (list string)) : Task.t :=
  Task.mk id script working_dir (default ∅ env) (default ∅ resources)
          (remove_dups (default [] dependencies)).

(** A request as [Client] builds it and [ConnectionHandler.handle] reads it
    after decoding: the [type] and the fields that go with it. *)
Inductive message :=
  | SubmitTaskMsg (id script : string) (working_dir : option string)
                  (env : option (gmap string string))
                  (resources : option (gmap string Z))
                  (dependencies : option (list string))
  | CancelTaskMsg (id : string)
  | GetStatusMsg (id : string)
  | OtherMsg (type : string).

(** [{"type": "ok"}] and [{"type": "status", "status": name}] *)
Inductive reply :=
  | OkReply
  | StatusReply (status : string).

(** One round of the loop in [ConnectionHandler.handle]: the scheduler
    after the request and the reply that was sent, if any. *)
Definition handle_message (st : TaskScheduler) (m : message)
  : result TaskScheduler * option reply :=
  match m with
  | SubmitTaskMsg id script working_dir env resources dependencies =>
      match enqueue_task st (Task_init id script working_dir env resources dependencies) with
      | Ok st' => (Ok st', Some OkReply)
      | Raise e st' => (Raise e st', None)
      end
  | CancelTaskMsg id =>
      match cancel_task st id with
      | Ok st' => (Ok st', Some OkReply)
      | Raise e st' => (Raise e st', None)
      end
  | GetStatusMsg id => (Ok st, Some (StatusReply (LocalStatus_name (get_status st id))))
  | OtherMsg _ => (Ok st, None)
  end.

(** [ConnectionHandler.handle] on the requests of one connection, until the
    peer closes or a request raises. *)
Fixpoint handle (st : TaskScheduler) (msgs : list message)
  : result TaskScheduler * list reply :=
  match msgs with
  | [] => (Ok st, [])
  | m :: msgs' =>
      match handle_message st m with
      | (Ok st', r) =>
          let '(res, replies) := handle st' msgs' in
          (res, (option_list r ++ replies)%list)
      | (Raise e st', r) => (Raise e st', option_list r)
      end
  end.



Definition answered (m : message) : bool :=
  match m with OtherMsg _ => false | _ => true end.

(** X15: on one connection, as long as no request raises, every request of
    a known type gets exactly one reply and a request of another type gets
    none; a request that raises gets no reply, and nothing after it is
    handled. *)
Theorem handle_replies st msgs :
  match handle st msgs with
  | (Ok _, replies) => length replies = length (filter (λ m, answered m = true) msgs)
  | (Raise e st', replies) =>
      ∃ done_ m rest st1,
        msgs = (done_ ++ m :: rest)%list ∧
        handle st done_ = (Ok st1, replies) ∧
        handle_message st1 m = (Raise e st', None)
  end.
Proof.
  revert st. induction msgs as [|m msgs IH]; intros st; simpl; [done|].
  destruct (handle_message st m) as [[st1|e st1] r] eqn:Hm.
  - specialize (IH st1). destruct (handle st1 msgs) as [[st2|e st2] replies].
    + rewrite length_app, IH, filter_cons.
      destruct m; simpl in Hm; simplify_eq/=;
        repeat case_match; simplify_eq/=; rewrite ?decide_True by done; simpl; done.
    + destruct IH as (done_ & m' & rest & st1' & -> & Hd & Hm').
      exists (m :: done_), m', rest, st1'. split_and!; [reflexivity| |done].
      simpl. by rewrite Hm, Hd.
  - assert (r = None) as ->.
    { destruct m; simpl in Hm; repeat case_match; by simplify_eq/=. }
    by exists [], m, msgs, st.
Qed.

(** ** [LocalBackend]: the facade in the user's process *)

(** A workflow target, as far as the backend reads it: [name], [spec],
    [working_dir] and [options] (the class is declared outside these
    sources). *)
Module Target.
Record t := mk {
  name : string;
  spec : string;
  working_dir : option string;
  options : gmap string Z
}.
End Target.


(** What a call of the facade can raise: [DependencyError], a [KeyError] of
    its own, or the failure of the client when the request raised on the
    server and no reply came. *)
Inductive facade_exn :=
  | DependencyError (key : string)
  | TrackedKeyError (key : string)
  | NoReply (e : exn).

(** [LocalBackend.option_defaults] *)
Definition option_defaults : gmap string Z := {[ "cores" := 1 ]}.

(** [[self._tracked[dep.name] for dep in dependencies]], with the
    [KeyError] turned into [DependencyError]. *)
Fixpoint dependency_ids (tracked : gmap string string) (dependencies : list Target.t)
  : facade_exn + list string :=
  match dependencies with
  | [] => inr []
  | dep :: dependencies' =>
      match tracked !! Target.name dep with
      | None => inl (DependencyError (Target.name dep))
      | Some id =>
          match dependency_ids tracked dependencies' with
          | inl e => inl e
          | inr ids => inr (id :: ids)
          end
      end
  end.

(** [Client.submit] against a server in state [st]; [task_id] is the id
    that [_gen_task_id] produced. *)
Definition Client_submit (st : TaskScheduler) (task_id script : string)
           (working_dir : option string) (env : gmap string string)
           (resources : gmap string Z) (dependencies : list string)
  : (facade_exn + string) * TaskScheduler :=
  match handle_message st (SubmitTaskMsg task_id script working_dir (Some env)
                                         (Some resources) (Some dependencies)) with
  | (Ok st', _) => (inr task_id, st')
  | (Raise e st', _) => (inl (NoReply e), st')
  end.

(** [LocalBackend.submit]: the tracked ids and the server after the call,
    and the exception if the call raised.  [environ] is [os.environ]. *)
Definition LocalBackend_submit (tracked : gmap string string) (st : TaskScheduler)
           (task_id : string) (environ : gmap string string)
           (target : Target.t) (dependencies : list Target.t)
  : option facade_exn * gmap string string * TaskScheduler :=
  match dependency_ids tracked dependencies with
  | inl e => (Some e, tracked, st)
  | inr ids =>
      let env := <["GWF_TARGET_NAME" := Target.name target]> environ in
      let resources := Target.options target ∪ option_defaults in
      match Client_submit st task_id (Target.spec target) (Target.working_dir target)
                          env resources ids with
      | (inl e, st') => (Some e, tracked, st')
      | (inr id, st') => (None, <[Target.name target := id]> tracked, st')
      end
  end.


Lemma dependency_ids_spec tracked dependencies :
  match dependency_ids tracked dependencies with
  | inr ids => Forall2 (λ dep id, tracked !! Target.name dep = Some id) dependencies ids
  | inl e =>
      ∃ ok dep rest, dependencies = (ok ++ dep :: rest)%list ∧
        Forall (λ d, is_Some (tracked !! Target.name d)) ok ∧
        tracked !! Target.name dep = None ∧ e = DependencyError (Target.name dep)
  end.
Proof.
  induction dependencies as [|dep deps IH]; simpl; [constructor|].
  destruct (tracked !! Target.name dep) as [id|] eqn:Hdep.
  - destruct (dependency_ids tracked deps) as [e|ids].
    + destruct IH as (ok & dep' & rest & -> & Hok & Hnone & ->).
      exists (dep :: ok), dep', rest. split_and!; [reflexivity| |done|done].
      constructor; [by rewrite Hdep|done].
    + by constructor.
  - exists [], dep, deps. split_and!; [reflexivity|constructor|done|done].
Qed.

(** X16: [LocalBackend.submit] with a dependency that is not tracked raises
    [DependencyError] for the first such dependency, sends nothing to the
    server and tracks nothing. *)
Theorem submit_untracked_dependency tracked st task_id environ target ok dep rest :
  Forall (λ d, is_Some (tracked !! Target.name d)) ok →
  tracked !! Target.name dep = None →
  LocalBackend_submit tracked st task_id environ target (ok ++ dep :: rest) =
  (Some (DependencyError (Target.name dep)), tracked, st).
Proof.
  intros Hok Hdep. unfold LocalBackend_submit.
  assert (dependency_ids tracked (ok ++ dep :: rest) =
          inl (DependencyError (Target.name dep))) as ->; [|done].
  induction Hok as [|d ok [id Hd] _ IH]; simpl.
  - by rewrite Hdep.
  - by rewrite Hd, IH.
Qed.

Lemma submit_untracked_dependency_witness :
  let a := Target.mk "A" "exit 0" None ∅ in
  let b := Target.mk "B" "exit 0" None ∅ in
  let c := Target.mk "C" "exit 0" None ∅ in
  LocalBackend_submit {[ "A" := "id1" ]} (init 2) "id3" ∅ c [a; b] =
  (Some (DependencyError "B"), {[ "A" := "id1" ]}, init 2).
Proof.
  intros a b c.
  apply (submit_untracked_dependency {[ "A" := "id1" ]} (init 2) "id3" ∅ c [a] b []).
  - apply Forall_cons_2; [|apply Forall_nil_2]. vm_compute. eauto.
  - reflexivity.
Defined.




(** ** [RunCommand.on_run] *)

Inductive run_exn := TargetDoesNotExistError (name : string).

(** The [for name in self.args.targets] loop: [targets] is
    [self.workflow.targets], [acc] the list built so far. *)
Fixpoint named_targets {A} (targets : gmap string A) (names : list string) (acc : list A)
  : run_exn + list A :=
  match names with
  | [] => inr acc
  | name :: names' =>
      match targets !! name with
      | None => inl (TargetDoesNotExistError name)
      | Some target => named_targets targets names' (acc ++ [target])
      end
  end.

(** [RunCommand.on_run]: the targets handed to [backend.schedule_many];
    [endpoints] is what [self.workflow.endpoints()] returns. *)
Definition on_run {A} (targets : gmap string A) (endpoints : list A)
           (args_targets : list string) : run_exn + list A :=
  match args_targets with
  | [] => inr endpoints
  | _ => named_targets targets args_targets []
  end.

Lemma named_targets_spec {A} (targets : gmap string A) names acc :
  match named_targets targets names acc with
  | inr ts => ∃ new, ts = (acc ++ new)%list ∧
                     Forall2 (λ name t, targets !! name = Some t) names new
  | inl e => ∃ ok name rest, names = (ok ++ name :: rest)%list ∧
               Forall (λ n, is_Some (targets !! n)) ok ∧
               targets !! name = None ∧ e = TargetDoesNotExistError name
  end.
Proof.
  revert acc. induction names as [|name names IH]; intros acc; simpl.
  - exists []. by rewrite app_nil_r.
  - destruct (targets !! name) as [t|] eqn:Ht.
    + specialize (IH (acc ++ [t])%list).
      destruct (named_targets targets names (acc ++ [t])) as [e|ts].
      * destruct IH as (ok & n & rest & -> & Hok & Hn & ->).
        exists (name :: ok), n, rest. split_and!; [reflexivity| |done|done].
        constructor; [by rewrite Ht|done].
      * destruct IH as (new & -> & Hnew). exists (t :: new).
        rewrite <- app_assoc. split; [done|]. by constructor.
    + exists [], name, names. split_and!; [reflexivity|constructor|done|done].
Qed.

(** X19: [on_run] without target names schedules the endpoints of the
    workflow; with names it schedules the named targets, one per name and in
    the order given, or raises [TargetDoesNotExistError] for the first name
    that the workflow does not have, before anything is scheduled. *)
Theorem on_run_spec {A} (targets : gmap string A) endpoints names :
  match on_run targets endpoints names with
  | inr ts => (names = [] ∧ ts = endpoints) ∨
              (names ≠ [] ∧ Forall2 (λ name t, targets !! name = Some t) names ts)
  | inl e => ∃ ok name rest, names = (ok ++ name :: rest)%list ∧
               Forall (λ n, is_Some (targets !! n)) ok ∧
               targets !! name = None ∧ e = TargetDoesNotExistError name
  end.
Proof.
  unfold on_run. destruct names as [|n names]; [by left|].
  pose proof (named_targets_spec targets (n :: names) []) as H.
  destruct (named_targets targets (n :: names) []) as [e|ts]; [done|].
  destruct H as (new & -> & H). by right.
Qed.

Lemma on_run_examples :
  let targets : gmap string nat := {[ "a" := 1%nat; "b" := 2%nat ]} in
  on_run targets [7%nat] [] = inr [7%nat] ∧
  on_run targets [7%nat] ["b"; "a"] = inr [2%nat; 1%nat] ∧
  on_run targets [7%nat] ["b"; "x"; "y"] = inl (TargetDoesNotExistError "x").
Proof. done. Qed.

(** ** [LocalBackend.cancel] *)



